(** * Build diagnostic engine (error.ts): segmentation and classification

    A shallow embedding of [analyzeErrorBlock] and [analyzeErrors] together
    with the JavaScript string and regular-expression operations they rely
    on, followed by the properties of the engine. *)

From Stdlib Require Import NArith String Ascii DecimalString.
From stdpp Require Import gmap list.

Local Open Scope N_scope.

(** ** JavaScript strings

    A JavaScript string is a sequence of UTF-16 code units.  The log is read
    with [fs.readFileSync(logFile, 'utf-8')], so a line can hold any code
    unit, not only ASCII. *)

Definition jsstring := list N.

(** String literals of the source, written as Rocq strings. *)
Definition lit (s : string) : jsstring :=
  map N_of_ascii (list_ascii_of_string s).

(** [WhiteSpace] and [LineTerminator] of ECMAScript: the code units removed
    by [String.prototype.trim] and matched by the class escape [\s]. *)
Definition is_line_terminator (c : N) : bool :=
  (c =? 10) || (c =? 13) || (c =? 8232) || (c =? 8233).

Definition is_space (c : N) : bool :=
  (c =? 9) || (c =? 11) || (c =? 12) || (c =? 32) || (c =? 160)
  || (c =? 5760) || ((8192 <=? c) && (c <=? 8202)) || (c =? 8239)
  || (c =? 8287) || (c =? 12288) || (c =? 65279) || is_line_terminator c.

Definition is_digit (c : N) : bool := (48 <=? c) && (c <=? 57).

(** [s.trim()] *)
Fixpoint trimStart (s : jsstring) : jsstring :=
  match s with
  | [] => []
  | c :: s' => if is_space c then trimStart s' else s
  end.

Definition trimEnd (s : jsstring) : jsstring := rev (trimStart (rev s)).

Definition trim (s : jsstring) : jsstring := trimEnd (trimStart s).

(** Truthiness of a string used as a condition: only the empty string is
    falsy. *)
Definition truthy (s : jsstring) : bool :=
  match s with [] => false | _ :: _ => true end.

(** [content.split('\n')]: always at least one piece. *)
Fixpoint split_nl (s : jsstring) : list jsstring :=
  match s with
  | [] => [[]]
  | c :: s' =>
      if c =? 10 then [] :: split_nl s'
      else match split_nl s' with
           | l :: ls => (c :: l) :: ls
           | [] => [[c]]
           end
  end.

(** [lines.join('\n')] *)
Fixpoint join_nl (ls : list jsstring) : jsstring :=
  match ls with
  | [] => []
  | [l] => l
  | l :: ls' => l ++ 10 :: join_nl ls'
  end.

(** [f] holds at some position of [s] (the end of the string included). *)
Fixpoint search (f : jsstring -> bool) (s : jsstring) : bool :=
  f s || match s with [] => false | _ :: s' => search f s' end.

Fixpoint startsWith (needle s : jsstring) : bool :=
  match needle, s with
  | [], _ => true
  | _ :: _, [] => false
  | a :: needle', c :: s' => (a =? c) && startsWith needle' s'
  end.

(** [s.includes(needle)] *)
Definition includes (needle s : jsstring) : bool := search (startsWith needle) s.

(** [String(n)] for a non-negative integer, as template literals print it. *)
Definition number_to_string (n : nat) : jsstring :=
  lit (NilZero.string_of_uint (Nat.to_uint n)).

(** ['c'.repeat(n)] for a one-character string. *)
Definition repeat_char (c : string) (n : nat) : jsstring :=
  concat (replicate n (lit c)).

(** ** Regular expressions

    The regular-expression literals of the source are alternatives of
    sequences of single-character classes, each taken once, or under [*] or
    [+].  [RegExp.prototype.test] on a pattern without the [g] flag is
    stateless and answers whether some alternative matches at some
    position. *)

Inductive CharClass :=
| CChar (p : N)   (* a pattern character, escaped or not *)
| CDigit          (* \d *)
| CSpace          (* \s *)
| CDot.           (* .  *)

Inductive Term :=
| One (a : CharClass)
| Star (a : CharClass)
| Plus (a : CharClass).

Record RegExp := mkRegExp {
  alternatives : list (list Term);
  ignoreCase : bool
}.

(** [Canonicalize] of a pattern without the [u] flag maps a code unit to its
    upper case, and never maps a code unit above 127 to one below 128.  All
    pattern characters of this program are ASCII, so upper-casing ASCII
    letters and leaving other code units alone decides the same matches. *)
Definition canonicalize (c : N) : N :=
  if (97 <=? c) && (c <=? 122) then c - 32 else c.

Definition class_matches (i : bool) (a : CharClass) (c : N) : bool :=
  match a with
  | CChar p => if i then canonicalize c =? canonicalize p else c =? p
  | CDigit => is_digit c
  | CSpace => is_space c
  | CDot => negb (is_line_terminator c)
  end.

(** [k] holds after skipping any number of characters accepted by [ok]. *)
Fixpoint star_loop (ok : N -> bool) (k : jsstring -> bool) (s : jsstring) : bool :=
  k s || match s with
         | [] => false
         | c :: s' => ok c && star_loop ok k s'
         end.

Fixpoint match_here (i : bool) (ts : list Term) (s : jsstring) {struct ts} : bool :=
  match ts with
  | [] => true
  | One a :: ts' =>
      match s with
      | [] => false
      | c :: s' => class_matches i a c && match_here i ts' s'
      end
  | Star a :: ts' => star_loop (class_matches i a) (match_here i ts') s
  | Plus a :: ts' =>
      match s with
      | [] => false
      | c :: s' =>
          class_matches i a c && star_loop (class_matches i a) (match_here i ts') s'
      end
  end.

(** [pattern.test(s)] *)
Definition test (r : RegExp) (s : jsstring) : bool :=
  existsb (fun ts => search (match_here (ignoreCase r) ts) s) (alternatives r).

(** Pattern syntax. *)
Definition chars (s : string) : list Term := map (fun c => One (CChar c)) (lit s).
Definition any_run : list Term := [Star CDot].        (* .*  *)
Definition digits : list Term := [Plus CDigit].       (* \d+ *)
Definition space : list Term := [One CSpace].         (* \s  *)

Definition re_i (alts : list (list Term)) : RegExp := mkRegExp alts true.
Definition re (alts : list (list Term)) : RegExp := mkRegExp alts false.

(** ** The signature table *)

Record ErrorPattern := mkErrorPattern {
  pattern : RegExp;
  type : jsstring;
  suggestion : jsstring
}.

Record ErrorBlock := mkErrorBlock {
  lines : list jsstring;
  block_type : jsstring;
  block_suggestion : jsstring
}.

Definition entry (r : RegExp) (t s : string) : ErrorPattern :=
  mkErrorPattern r (lit t) (lit s).

Definition ERROR_PATTERNS : list ErrorPattern := [
  entry
    (re_i [chars "No such file or directory"])
    "Missing Header or Source File"
    "Check if the file path is correct, or if required development libraries are missing (e.g., libssl-dev, zlib1g-dev).";
  entry
    (re_i [chars "undefined reference to"])
    "Link Error: Missing Library or Function"
    "Check if required libraries are missing (e.g., -lssl, -lcrypto), if library paths are in LDFLAGS/LDLIBS, or if function names are misspelled.";
  entry
    (re_i [chars "unrecognized command line option"])
    "Compiler Option Not Supported"
    "Your compiler version may be too old or too new. Check the options passed to the compiler in the Makefile for compatibility with your compiler version. Consider upgrading or downgrading the toolchain.";
  entry
    (re_i [chars "misleading-indentation"])
    "Code Indentation Does Not Match Logic"
    "This is a code style/logic potential error. Add braces '{}' after 'if', 'for', 'while' statements to clarify code block scope. Or disable this warning (not recommended).";
  entry
    (re_i [chars "type specifier missing"])
    "C Language Type Declaration Missing"
    "Variable or function declarations may be missing types (e.g., int). For kernel modules, it could be missing headers or ordering issues, or API changes between kernel versions.";
  entry
    (re_i [chars "make[" ++ digits ++ chars "]:" ++ any_run ++ chars "Error " ++ digits])
    "Makefile Build Error"
    "This is a Makefile rule execution failure. Check the specific error messages above, usually a subcommand (e.g., 'gcc', 'ld', 'sh') returned a non-zero status code.";
  entry
    (re_i [chars "target emulation unknown"])
    "Linker Emulation Mode Error"
    "Your linker (ld) does not recognize the specific emulation mode. Check if LLVM and GNU toolchains are mixed, or ensure LD variable correctly points to LLVM's lld.";
  entry
    (re_i [chars "cannot open" ++ any_run ++ chars ".gz"])
    "File Missing (Configuration May Not Be Generated)"
    "Check if 'make defconfig' or your device-specific config has been run. If 'make mrproper' was executed previously, reconfiguration is needed.";
  entry
    (re_i [chars "makes pointer from integer without a cast"])
    "Type Conversion Error (Pointer and Integer)"
    "This is a severe type mismatch. Usually the function return type does not match the expected type (e.g., returning int but expecting pointer). May need to modify source code or use a more compatible compiler.";
  entry
    (re_i [chars "MODULE_IMPORT_NS(VFS_internal_I_am_really_a_filesystem_and_am_NOT_a_driver)"])
    "Clang Version Anomaly"
    "This is a compiler and KernelSU compatibility issue, usually occurs with KernelSU official version and SukiSU-Ultra. For official version, you can choose the old v0.9.5 version; for SukiSU-Ultra, it is generally recommended to switch to a different KernelSU branch.";
  entry
    (re_i [chars "not found (required by clang)"])
    "Clang Version Anomaly"
    "The current build system version is too old. If using 20.04, please use 22.04, otherwise use latest.";
  entry
    (re_i [chars "multiple definition of 'yylloc'"])
    "Kernel Defect"
    "Modify YYLTYPE yylloc to extern YYLTYPE yylloc in scripts/dtc/dtc-lexer.lex.c_shipped";
  entry
    (re_i [chars "assembler command failed with exit code 1"])
    "Clang Compiler Error"
    "Switch to a different Clang compiler version";
  entry
    (re_i [chars "incompatible pointer types passing 'atomic_long_t *'"])
    "Source Code Pointer Type Error"
    "Usually occurs after manual patching of cred.h, replace atomic_inc_not_zero with atomic_long_inc_not_zero in the code";
  entry
    (re_i [chars "-Werror"])
    "Warning Treated as Error"
    "The compiler is treating warnings as errors due to -Werror flag. Either fix the underlying warning, or temporarily remove -Werror from CFLAGS/KBUILD_CFLAGS in the Makefile to allow compilation with warnings.";
  entry
    (re_i [chars "implicit declaration of function"])
    "Implicit Function Declaration"
    "A function is being used without being declared first. Include the proper header file, or add a function declaration/prototype before use. This may also indicate an API change in newer kernel versions.";
  entry
    (re_i [chars "array subscript" ++ any_run ++ chars "is outside array bounds"])
    "Array Index Out of Bounds"
    "Accessing an array element outside its declared size. Check array bounds and ensure indices are within valid range [0, size-1]. This could be a buffer overflow risk.";
  entry
    (re_i [chars "division by zero"])
    "Division by Zero"
    "Code attempts to divide by zero. Add proper checks to ensure the divisor is not zero before performing division operations.";
  entry
    (re_i [chars "null pointer dereference"])
    "Null Pointer Dereference"
    "Attempting to access memory through a null pointer. Add null checks before dereferencing pointers, or ensure proper initialization before use.";
  entry
    (re_i [chars "incompatible implicit declaration"])
    "Incompatible Implicit Declaration"
    "Function was implicitly declared with a signature that does not match its actual definition. Include the correct header or add a proper function prototype.";
  entry
    (re_i [chars "unused variable"])
    "Unused Variable"
    "A variable is declared but never used. Either use the variable, remove it, or mark it with __maybe_unused attribute to suppress the warning.";
  entry
    (re_i [chars "uninitialized variable"])
    "Uninitialized Variable"
    "A variable is being used before being initialized. Initialize the variable at declaration or before first use.";
  entry
    (re_i [chars "dereferencing pointer to incomplete type"])
    "Dereferencing Incomplete Type"
    "Attempting to access members of a struct/union that has not been fully defined. Include the header file containing the complete type definition.";
  entry
    (re_i [chars "conflicting types"])
    "Conflicting Types"
    "A function or variable has been declared with different types in different places. Ensure all declarations match the definition exactly.";
  entry
    (re_i [chars "redefinition of "])
    "Symbol Redefinition"
    "A function, variable, or macro has been defined multiple times. Check for duplicate definitions or include guards in header files.";
  entry
    (re_i [chars "deprecated"])
    "Deprecated API Usage"
    "Using a deprecated function or feature. Update the code to use the recommended replacement API or suppress with -Wno-deprecated-declarations (not recommended for long-term).";
  entry
    (re_i [chars "overflow in conversion"])
    "Integer Overflow in Conversion"
    "A value is being converted to a type that cannot hold it. Check value ranges and use appropriate data types or add bounds checking.";
  entry
    (re_i [chars "shift count overflow"])
    "Bit Shift Overflow"
    "The shift amount exceeds the bit width of the type. Ensure shift counts are less than the types bit width (e.g., < 32 for int32).";
  entry
    (re_i [chars "cast from pointer to integer of different size"])
    "Pointer to Integer Size Mismatch"
    "Converting a pointer to an integer type with different size. Use uintptr_t or intptr_t types which are guaranteed to hold pointer values.";
  entry
    (re_i [chars "variable length array"])
    "Variable Length Array (VLA) Used"
    "Using VLA which may cause stack overflow. Consider using dynamic allocation (kmalloc/vmalloc for kernel) instead, or ensure size is bounded.";
  entry
    (re_i [chars "taking address of temporary"])
    "Address of Temporary Value"
    "Attempting to take the address of a temporary/rvalue. Store the value in a variable first, then take its address.";
  entry
    (re_i [chars "control reaches end of non-void function"])
    "Missing Return Statement"
    "A non-void function may reach the end without returning a value. Add a return statement at the end of all code paths.";
  entry
    (re_i [chars "comparison of integer expressions of different signedness"])
    "Signed/Unsigned Comparison"
    "Comparing signed and unsigned integers. Cast one operand to match the others type, or ensure consistent types throughout.";
  entry
    (re_i [chars "result of operation is still indeterminate"])
    "Sequence Point Violation"
    "Undefined behavior due to multiple modifications between sequence points. Break the expression into multiple statements.";
  entry
    (re_i [chars "stack-protector"])
    "Stack Protection Enabled But Failed"
    "Stack smashing detected or stack protector instrumentation failed. Check for buffer overflows in the code, or disable with -fno-stack-protector (not recommended).";
  entry
    (re_i [chars "clock skew detected"])
    "Clock Skew Detected"
    "File timestamps are in the future. Synchronize system clock or touch the affected files to update timestamps."
].

(** ** The classifier *)

Definition default_type : jsstring := lit "Uncommon Error".

Definition default_suggestion : jsstring :=
  lit "Please follow the compilation output error results and try to resolve using search engines".

(** The [for ... of] loop of [analyzeErrorBlock]: the first entry whose
    pattern matches assigns the result and leaves the loop. *)
Fixpoint scan_patterns (table : list ErrorPattern) (errorBlockText : jsstring)
    (errorType sugg : jsstring) : jsstring * jsstring :=
  match table with
  | [] => (errorType, sugg)
  | p :: table' =>
      if test (pattern p) errorBlockText
      then (type p, lit "Suggestion: " ++ suggestion p)
      else scan_patterns table' errorBlockText errorType sugg
  end.

(** [analyzeErrorBlock], over any table. *)
Definition analyzeErrorBlockWith (table : list ErrorPattern) (ls : list jsstring)
    : jsstring * jsstring :=
  let errorBlockText := join_nl ls in
  scan_patterns table errorBlockText default_type default_suggestion.

Definition analyzeErrorBlock : list jsstring -> jsstring * jsstring :=
  analyzeErrorBlockWith ERROR_PATTERNS.

(** ** The segmenter: the line loop of [analyzeErrors] *)

(** [/\serror:|\sfatal error:|undefined reference to/i] *)
Definition error_start : RegExp :=
  re_i [space ++ chars "error:";
        space ++ chars "fatal error:";
        chars "undefined reference to"].

(** [/make\[\d+\]:/] *)
Definition make_prefix : RegExp := re [chars "make[" ++ digits ++ chars "]:"].

(** The local variables of [analyzeErrors] that the loop updates. *)
Record Scan := mkScan {
  errorCount : nat;
  errorBlocks : list ErrorBlock;
  currentErrorLines : list jsstring;
  processingError : bool
}.

Definition scan_init : Scan := mkScan 0 [] [] false.

Section Segmenter.

(** The classifier called on every closed block, and the continuation
    test of the [else if]. *)
Variable classify : list jsstring -> jsstring * jsstring.
Variable continues : jsstring -> bool.

(** [if (processingError && currentErrorLines.length > 0) { push }] *)
Definition save_block (st : Scan) : list ErrorBlock :=
  if processingError st && (0 <? length (currentErrorLines st))%nat
  then
    let '(t, s) := classify (currentErrorLines st) in
    errorBlocks st ++ [mkErrorBlock (currentErrorLines st) t s]
  else errorBlocks st.

(** One iteration of [for (const line of lines)]. *)
Definition scan_line (st : Scan) (line : jsstring) : Scan :=
  if test error_start line then
    mkScan (S (errorCount st)) (save_block st) [line] true
  else if processingError st && continues line then
    mkScan (errorCount st) (errorBlocks st) (currentErrorLines st ++ [line]) true
  else
    mkScan (errorCount st) (save_block st) [] false.

Definition scan_lines (st : Scan) (ls : list jsstring) : Scan :=
  fold_left scan_line ls st.

(** The loop followed by "Handle last error block". *)
Definition scan_log (ls : list jsstring) : nat * list ErrorBlock :=
  let st := scan_lines scan_init ls in
  (errorCount st, save_block st).

End Segmenter.

(** The continuation test as written:
    [line.includes('note:') || (/make\[\d+\]:/.test(line) && line.includes('***')) || trimmedLine] *)
Definition continuation (line : jsstring) : bool :=
  let trimmedLine := trim line in
  includes (lit "note:") line
  || (test make_prefix line && includes (lit "***") line)
  || truthy trimmedLine.

(** ** Effects: the reporting sink and the file system

    [analyzeErrors] talks to the outside through [core.info],
    [core.warning], [core.error] and through [fs].  The world holds the
    regular files by path and the calls made so far, in order; a computation
    either returns a value or throws. *)

Inductive Event :=
| CoreInfo (message : jsstring)
| CoreWarning (message : jsstring)
| CoreError (message : jsstring)
| FsWriteFile (path data : jsstring).

Record World := mkWorld {
  files : gmap jsstring jsstring;
  events : list Event
}.

Definition M (A : Type) : Type := World -> option A * World.

#[global] Instance M_ret : MRet M := fun A (x : A) w => (Some x, w).

#[global] Instance M_bind : MBind M := fun A B (f : A -> M B) (m : M A) w =>
  match m w with
  | (Some x, w') => f x w'
  | (None, w') => (None, w')
  end.

Definition emit (e : Event) : M unit :=
  fun w => (Some tt, mkWorld (files w) (events w ++ [e])).

Definition core_info (message : jsstring) : M unit := emit (CoreInfo message).
Definition core_warning (message : jsstring) : M unit := emit (CoreWarning message).
Definition core_error (message : jsstring) : M unit := emit (CoreError message).

Definition existsSync (path : jsstring) : M bool :=
  fun w => (Some (bool_decide (is_Some (files w !! path))), w).

(** Reading a path that holds no file throws. *)
Definition readFileSync (path : jsstring) : M jsstring :=
  fun w => (files w !! path, w).

Definition writeFileSync (path data : jsstring) : M unit :=
  fun w => (Some tt, mkWorld (<[path := data]> (files w))
                             (events w ++ [FsWriteFile path data])).

(** [for (const x of xs) body(x)] *)
Fixpoint for_of {A : Type} (xs : list A) (body : A -> M unit) : M unit :=
  match xs with
  | [] => mret tt
  | x :: xs' => body x;; for_of xs' body
  end.

(** [for (let idx = from; idx < from + blocks.length; idx++) body(idx, blocks[idx])] *)
Fixpoint for_idx (idx : nat) (blocks : list ErrorBlock)
    (body : nat -> ErrorBlock -> M unit) : M unit :=
  match blocks with
  | [] => mret tt
  | block :: blocks' => body idx block;; for_idx (S idx) blocks' body
  end.

(** ** [analyzeErrors] *)

Definition printSeparator : M unit := core_info (repeat_char "-" 56).

Definition marker_path : jsstring := lit "have_error".

Definition newline : jsstring := [10].

(** "Process and display each error block" *)
Definition display_blocks (errorBlocks : list ErrorBlock) : M unit :=
  for_idx 0 errorBlocks (fun idx block =>
    core_info (lit "Error #" ++ number_to_string (idx + 1) ++ lit ":");;
    for_of (lines block) (fun errorLine => core_info (lit "  " ++ errorLine));;
    core_info (lit "Error: " ++ block_type block);;
    core_warning (lit "Suggestion: " ++ block_suggestion block);;
    printSeparator).

(** "Summary" *)
Definition summary (errorCount : nat) (errorBlocks : list ErrorBlock) : M unit :=
  if (0 <? errorCount)%nat then
    core_info (lit "Total found " ++ number_to_string errorCount ++ lit " error(s).");;
    core_warning (lit "Please carefully review the error messages and suggestions above.");;
    writeFileSync marker_path [];;
    core_info [];;
    core_info (repeat_char "=" 56);;
    core_info (lit "                    Error Summary");;
    core_info (repeat_char "=" 56);;
    for_idx 0 errorBlocks (fun idx block =>
      core_info (newline ++ lit "  [" ++ number_to_string (idx + 1) ++ lit "] "
                 ++ block_type block);;
      core_warning (lit "      " ++ block_suggestion block));;
    core_info (newline ++ repeat_char "=" 56);;
    core_info (lit "Total: " ++ number_to_string errorCount ++ lit " error(s)");;
    core_info (repeat_char "=" 56)
  else
    core_info (lit "No errors found.").

Definition analyzeErrors (logFile : jsstring) : M nat :=
  found ← existsSync logFile;
  if negb found then
    core_error (lit "Log file '" ++ logFile ++ lit "' does not exist.");;
    mret 0%nat
  else
    core_info (lit "Analyzing log file: " ++ logFile);;
    printSeparator;;
    content ← readFileSync logFile;
    let '(errorCount, errorBlocks) :=
      scan_log analyzeErrorBlock continuation (split_nl content) in
    display_blocks errorBlocks;;
    summary errorCount errorBlocks;;
    printSeparator;;
    mret errorCount.

(** The first log of the end-to-end scenario. *)
Definition scenario_log : jsstring :=
  lit "foo.c: error: undefined reference to 'bar'" ++ newline
  ++ lit "note: declared here" ++ newline
  ++ newline
  ++ lit "baz.c: error: unrecognized command line option '-fxyz'".

(** * Vocabulary of the properties *)

Definition trigger_lines (ls : list jsstring) : list jsstring :=
  List.filter (test error_start) ls.

Definition first_line (b : ErrorBlock) : jsstring := hd [] (lines b).

Section SegmenterVocabulary.

Variable classify : list jsstring -> jsstring * jsstring.
Variable continues : jsstring -> bool.

(** The block made of the lines [ls]. *)
Definition block_of (ls : list jsstring) : ErrorBlock :=
  mkErrorBlock ls (classify ls).1 (classify ls).2.

(** While an error is being processed, it has at least one line. *)
Definition open_nonempty (st : Scan) : Prop :=
  processingError st = true -> currentErrorLines st <> [].

(** The blocks reported for a list of lines. *)
Definition scan_blocks (ls : list jsstring) : list ErrorBlock :=
  (scan_log classify continues ls).2.

(** The scan state with its closed blocks and its counter forgotten. *)
Definition rebase (st : Scan) : Scan :=
  mkScan 0 [] (currentErrorLines st) (processingError st).

(** Once the first saved block starts with [t], it keeps doing so. *)
Definition headed (t : jsstring) (st : Scan) : Prop :=
  exists more bs, save_block classify st = block_of (t :: more) :: bs.

(** A saved block has at least one line and carries the classification of
    its own lines. *)
Definition classified (b : ErrorBlock) : Prop :=
  lines b <> [] /\ b = block_of (lines b).

End SegmenterVocabulary.

(** The files written by a sequence of calls, in order. *)
Definition file_writes (out : list Event) : list (jsstring * jsstring) :=
  omap (fun e => match e with FsWriteFile p d => Some (p, d) | _ => None end) out.

Definition apply_writes (ws : list (jsstring * jsstring))
    (fs : gmap jsstring jsstring) : gmap jsstring jsstring :=
  foldl (fun fs pd => <[pd.1 := pd.2]> fs) fs ws.

(** [m] returns [x] in every world, after making the calls [out]. *)
Definition does {A : Type} (m : M A) (x : A) (out : list Event) : Prop :=
  forall w, m w = (Some x, mkWorld (apply_writes (file_writes out) (files w))
                                   (events w ++ out)).

(** [m] only talks to the reporting sink. *)
Definition sink_only (m : M unit) : Prop :=
  exists out, does m tt out /\ file_writes out = [].

(** The result of segmenting a log. *)
Definition errors_in (content : jsstring) : nat :=
  (scan_log analyzeErrorBlock continuation (split_nl content)).1.

Definition blocks_in (content : jsstring) : list ErrorBlock :=
  (scan_log analyzeErrorBlock continuation (split_nl content)).2.

(** What [analyzeErrors] does once the log has been read. *)
Definition report (content : jsstring) : M nat :=
  display_blocks (blocks_in content);;
  summary (errors_in content) (blocks_in content);;
  printSeparator;;
  mret (errors_in content).

(** A world that holds one log. *)
Definition build_log : jsstring := lit "out/build.log".

Definition world_with (content : jsstring) : World :=
  mkWorld {[ build_log := content ]} [].

Definition matches (text : jsstring) (p : ErrorPattern) : bool :=
  test (pattern p) text.

(** A line matched by the entries for a missing symbol (position 1) and for
    [-Werror] (position 14). *)
Definition werror_link_line : jsstring :=
  lit "foo.c: error: undefined reference to 'bar' [-Werror]".

Definition syntax_error_line : jsstring :=
  lit "foo.c:3:1: error: expected ';' before '}' token".

(** The blocks the segmenter of [analyzeErrors] makes of a list of lines. *)
Definition incidents (ls : list jsstring) : list ErrorBlock :=
  scan_blocks analyzeErrorBlock continuation ls.

(** The block with the lines [ls] and their classification. *)
Definition incident (ls : list jsstring) : ErrorBlock :=
  block_of analyzeErrorBlock ls.

Definition blank (line : jsstring) : Prop := trim line = [].

(** Case-insensitive search for a needle, as the specification words the
    trigger test. *)
Fixpoint starts_with_ci (needle s : jsstring) : bool :=
  match needle, s with
  | [], _ => true
  | _ :: _, [] => false
  | a :: needle', c :: s' =>
      (canonicalize c =? canonicalize a) && starts_with_ci needle' s'
  end.

Definition contains_ci (needle : string) (line : jsstring) : bool :=
  search (starts_with_ci (lit needle)) line.

(** The trigger test in the words of the specification: the line contains
    " error:", " fatal error:" or "undefined reference to", in any case. *)
Definition spec_trigger (line : jsstring) : bool :=
  contains_ci " error:" line
  || contains_ci " fatal error:" line
  || contains_ci "undefined reference to" line.

(** A white-space character of any kind followed by the needle. *)
Definition space_then_ci (needle : string) (line : jsstring) : bool :=
  search (fun s => match s with
                   | [] => false
                   | w :: s' => is_space w && starts_with_ci (lit needle) s'
                   end) line.

(** The trigger test as amended: any white-space character may stand before
    "error:" and "fatal error:". *)
Definition space_trigger (line : jsstring) : bool :=
  space_then_ci "error:" line
  || space_then_ci "fatal error:" line
  || contains_ci "undefined reference to" line.

(** A line where a tab stands before "error:". *)
Definition tab_error_line : jsstring :=
  lit "ld:" ++ [9] ++ lit "error: cannot find -lfoo".

(** The continuation rule reduced to its third clause: any line whose
    trimmed form is not empty continues an open block. *)
Definition nonblank_only (line : jsstring) : bool := truthy (trim line).

(** * More of the repository *)

(** ** [analyzeBuildErrors] (error.ts) *)

Section BuildLog.

(** [path.join] of Node, which is not code of the repository. *)
Variable path_join : list jsstring -> jsstring.

Definition analyzeBuildErrors (kernelDir : jsstring) : M unit :=
  let logFile := path_join [kernelDir; lit "out"; lit "build.log"] in
  found ← existsSync logFile;
  if found : bool then
    analyzeErrors logFile;;
    mret tt
  else
    core_warning (lit "Build log not found: " ++ logFile).

End BuildLog.

(** ** [filterMakeArgs] (utils.ts) *)

Definition dangerous : list jsstring :=
  map lit ["CC="; "CXX="; "LD="; "AS="; "AR="; "NM="; "STRIP="; "OBJCOPY=";
           "OBJDUMP="; "HOSTCC="; "KBUILD_HOSTCC="; "SHELL="; "MAKEFLAGS=";
           "MAKE="; "CROSS_COMPILE="; "CLANG_TRIPLE="; "LLVM="; "CLVM="; "O=";
           "ARCH="]%string.

(** The callback of the filter: [for (const prefix of dangerous)] with its
    early [return false], then [return true]. *)
Fixpoint keep_arg (prefixes : list jsstring) (arg : jsstring) : M bool :=
  match prefixes with
  | [] => mret true
  | prefix :: prefixes' =>
      if startsWith prefix arg then
        core_warning (lit "Ignoring override of critical variable: " ++ arg);;
        mret false
      else keep_arg prefixes' arg
  end.

(** [args.filter(callback)]: the callback runs on every element, in order. *)
Fixpoint array_filter {A : Type} (callback : A -> M bool) (args : list A) : M (list A) :=
  match args with
  | [] => mret []
  | arg :: args' =>
      keep ← callback arg;
      kept ← array_filter callback args';
      mret (if keep : bool then arg :: kept else kept)
  end.

Definition filterMakeArgs (args : list jsstring) : M (list jsstring) :=
  array_filter (keep_arg dangerous) args.

(** ** Kernel configuration (config.ts)

    The functions of config.ts also open and close log groups and append
    to files, so they get calls and a world of their own. *)

Inductive ConfigCall :=
| CfgStartGroup (name : jsstring)
| CfgEndGroup
| CfgInfo (message : jsstring)
| CfgWarning (message : jsstring)
| CfgWriteFile (path data : jsstring)
| CfgAppendFile (path data : jsstring).

Record Disk := mkDisk {
  stored : gmap jsstring jsstring;
  calls : list ConfigCall
}.

Definition Act (A : Type) : Type := Disk -> option A * Disk.

#[global] Instance Act_ret : MRet Act := fun A (x : A) d => (Some x, d).

#[global] Instance Act_bind : MBind Act := fun A B (f : A -> Act B) (m : Act A) d =>
  match m d with
  | (Some x, d') => f x d'
  | (None, d') => (None, d')
  end.

Definition call (c : ConfigCall) : Act unit :=
  fun d => (Some tt, mkDisk (stored d) (calls d ++ [c])).

Definition core_startGroup (name : jsstring) : Act unit := call (CfgStartGroup name).
Definition core_endGroup : Act unit := call CfgEndGroup.
Definition cfg_info (message : jsstring) : Act unit := call (CfgInfo message).
Definition cfg_warning (message : jsstring) : Act unit := call (CfgWarning message).

Definition fs_existsSync (path : jsstring) : Act bool :=
  fun d => (Some (bool_decide (is_Some (stored d !! path))), d).

(** Reading a path that holds no file throws. *)
Definition fs_readFileSync (path : jsstring) : Act jsstring :=
  fun d => (stored d !! path, d).

Definition fs_writeFileSync (path data : jsstring) : Act unit :=
  fun d => (Some tt, mkDisk (<[path := data]> (stored d))
                            (calls d ++ [CfgWriteFile path data])).

(** Appending creates the file when it does not exist. *)
Definition fs_appendFileSync (path data : jsstring) : Act unit :=
  fun d => (Some tt, mkDisk (<[path := default [] (stored d !! path) ++ data]> (stored d))
                            (calls d ++ [CfgAppendFile path data])).

(** [s.replace(/pattern/g, replacement)] for a pattern made of one or more
    literal characters and a replacement without [$]: the matches are
    looked for from left to right and do not overlap.  [skip] counts the
    characters of the current match still to pass over. *)
Fixpoint replace_from (pattern replacement : jsstring) (skip : nat) (s : jsstring)
    : jsstring :=
  match s with
  | [] => []
  | c :: s' =>
      match skip with
      | S skip' => replace_from pattern replacement skip' s'
      | O =>
          if startsWith pattern s
          then replacement ++ replace_from pattern replacement (length pattern - 1) s'
          else c :: replace_from pattern replacement 0 s'
      end
  end.

Definition replace_all (pattern replacement s : jsstring) : jsstring :=
  replace_from pattern replacement 0 s.

(** [for (const x of xs) body(x)] *)
Fixpoint cfg_for_of {A : Type} (xs : list A) (body : A -> Act unit) : Act unit :=
  match xs with
  | [] => mret tt
  | x :: xs' => body x;; cfg_for_of xs' body
  end.

Definition disableLto (configPath : jsstring) : Act unit :=
  core_startGroup (lit "Disabling LTO");;
  found ← fs_existsSync configPath;
  if negb found then
    cfg_warning (lit "Config file not found: " ++ configPath);;
    core_endGroup
  else
    cfg_info (lit "Disabling LTO...");;
    content ← fs_readFileSync configPath;
    let content := replace_all (lit "CONFIG_LTO=y") (lit "CONFIG_LTO=n") content in
    let content :=
      replace_all (lit "CONFIG_LTO_CLANG=y") (lit "CONFIG_LTO_CLANG=n") content in
    let content :=
      replace_all (lit "CONFIG_THINLTO=y") (lit "CONFIG_THINLTO=n") content in
    let content :=
      if negb (includes (lit "CONFIG_LTO_NONE") content)
      then content ++ newline ++ lit "CONFIG_LTO_NONE=y" ++ newline
      else content in
    fs_writeFileSync configPath content;;
    cfg_info (lit "LTO disabled");;
    core_endGroup.

Definition appendConfig (configPath option : jsstring) : Act unit :=
  fs_appendFileSync configPath (option ++ newline).

Definition kvmOptions : list jsstring :=
  map lit ["CONFIG_VIRTUALIZATION=y"; "CONFIG_KVM=y"; "CONFIG_KVM_MMIO=y";
           "CONFIG_KVM_ARM_HOST=y"]%string.

Definition enableKvm (configPath : jsstring) : Act unit :=
  core_startGroup (lit "Enabling KVM support");;
  cfg_info (lit "Enabling KVM support...");;
  cfg_for_of kvmOptions (fun option => appendConfig configPath option);;
  cfg_info (lit "KVM support enabled");;
  core_endGroup.

(** The [options] of [applyKernelConfig]: both fields may be absent. *)
Record ConfigOptions := mkConfigOptions {
  opt_disableLto : option bool;
  opt_kvm : option bool
}.

(** Truthiness of an optional boolean. *)
Definition is_set (flag : option bool) : bool := default false flag.

Definition applyKernelConfig (configPath : jsstring) (options : ConfigOptions) : Act unit :=
  (if is_set (opt_disableLto options) then disableLto configPath else mret tt);;
  (if is_set (opt_kvm options) then enableKvm configPath else mret tt).

Definition readKernelConfig (configPath : jsstring) : Act jsstring :=
  found ← fs_existsSync configPath;
  if negb found then mret []
  else fs_readFileSync configPath.

Definition writeKernelConfig (configPath content : jsstring) : Act unit :=
  fs_writeFileSync configPath content.

(** ** [fileExists] (utils.ts) and [sedReplaceInRange] (patches.ts) *)

(** [fs.statSync(path).isFile()]: the world holds regular files only;
    [statSync] throws on a path that holds nothing. *)
Definition statSync_isFile (path : jsstring) : M bool :=
  fun w => (match files w !! path with Some _ => Some true | None => None end, w).

Definition fileExists (filePath : jsstring) : M bool :=
  found ← existsSync filePath;
  if found : bool then statSync_isFile filePath else mret false.

(** The replacement text of [String.prototype.replace] for a string
    pattern, which has no captures: [$$] stands for a dollar sign, [$&] for
    the match, [$`] for the text before it and [$'] for the text after it;
    any other dollar sign stands for itself. *)
Fixpoint get_substitution (matched before after template : jsstring) : jsstring :=
  match template with
  | [] => []
  | c :: t =>
      if c =? 36 then
        match t with
        | [] => [c]
        | c2 :: t' =>
            if c2 =? 36 then 36 :: get_substitution matched before after t'
            else if c2 =? 38 then matched ++ get_substitution matched before after t'
            else if c2 =? 96 then before ++ get_substitution matched before after t'
            else if c2 =? 39 then after ++ get_substitution matched before after t'
            else c :: get_substitution matched before after t
        end
      else c :: get_substitution matched before after t
  end.

(** [s.replace(search, replace)] with strings: the first occurrence of
    [search], if any, is replaced.  [before] is the text already passed. *)
Fixpoint replace_first_from (search replace before s : jsstring) : jsstring :=
  if startsWith search s then
    let after := drop (length search) s in
    before ++ get_substitution search before after replace ++ after
  else
    match s with
    | [] => before
    | c :: s' => replace_first_from search replace (before ++ [c]) s'
    end.

Definition replace_first (search replace s : jsstring) : jsstring :=
  replace_first_from search replace [] s.

(** The loop of [sedReplaceInRange] over [lines], from the index where
    [inRange] holds the given value. *)
Fixpoint sed_lines (startPattern endPattern search replace : jsstring)
    (inRange : bool) (lines : list jsstring) : list jsstring :=
  match lines with
  | [] => []
  | line :: lines' =>
      let inRange := if includes startPattern line then true else inRange in
      let inRange := if inRange && includes endPattern line then false else inRange in
      let line' :=
        if inRange && includes search line
        then replace_first search replace line
        else line in
      line' :: sed_lines startPattern endPattern search replace inRange lines'
  end.

Definition sedReplaceInRange
    (filePath startPattern endPattern search replace : jsstring) : M unit :=
  found ← fileExists filePath;
  if negb found then mret tt
  else
    content ← readFileSync filePath;
    let lines := split_nl content in
    let lines := sed_lines startPattern endPattern search replace false lines in
    writeFileSync filePath (join_nl lines).

(** * Vocabulary of the further properties *)

(** ASCII letters in upper case, other code units unchanged. *)
Definition upper_case (s : jsstring) : jsstring := map canonicalize s.

(** The pattern of [error_start] without its second alternative. *)
Definition error_start_short : RegExp :=
  re_i [space ++ chars "error:"; chars "undefined reference to"].

(** A block between two lists of lines. *)
Definition run_of (ls : list jsstring) (b : ErrorBlock) : Prop :=
  exists before after, ls = before ++ lines b ++ after.

(** A block starts with a line that starts an error, and goes on with
    lines that do not and are not blank. *)
Definition well_shaped (b : ErrorBlock) : Prop :=
  exists t rest,
    lines b = t :: rest
    /\ test error_start t = true
    /\ Forall (fun l => test error_start l = false /\ trim l <> []) rest.

Section BlockShapeVocabulary.

Variable classify : list jsstring -> jsstring * jsstring.
Variable continues : jsstring -> bool.

(** Lines that begin with a line that starts an error and go on with lines
    that continue it. *)
Definition opened (cur : list jsstring) : Prop :=
  exists t rest,
    cur = t :: rest
    /\ test error_start t = true
    /\ Forall (fun l => test error_start l = false /\ continues l = true) rest.

(** What holds of the scan state after the lines [seen]. *)
Record scanned (seen : list jsstring) (st : Scan) : Prop := {
  scanned_blocks :
    Forall (fun b => opened (lines b) /\ run_of seen b) (errorBlocks st);
  scanned_open :
    processingError st = true ->
    opened (currentErrorLines st)
    /\ exists before, seen = before ++ currentErrorLines st;
  scanned_order :
    concat (map lines (save_block classify st)) `sublist_of` seen
}.

End BlockShapeVocabulary.

(** A block and a scan state with their lines in upper case. *)
Definition upper_block (b : ErrorBlock) : ErrorBlock :=
  mkErrorBlock (map upper_case (lines b)) (block_type b) (block_suggestion b).

Definition upper_scan (st : Scan) : Scan :=
  mkScan (errorCount st) (map upper_block (errorBlocks st))
         (map upper_case (currentErrorLines st)) (processingError st).

(** The calls of the listing of one block, and of the listing of all
    blocks from the ordinal [idx + 1] on. *)
Definition block_events (idx : nat) (block : ErrorBlock) : list Event :=
  CoreInfo (lit "Error #" ++ number_to_string (idx + 1) ++ lit ":")
  :: map (fun errorLine => CoreInfo (lit "  " ++ errorLine)) (lines block)
  ++ [CoreInfo (lit "Error: " ++ block_type block);
      CoreWarning (lit "Suggestion: " ++ block_suggestion block);
      CoreInfo (repeat_char "-" 56)].

Fixpoint listing_events (idx : nat) (blocks : list ErrorBlock) : list Event :=
  match blocks with
  | [] => []
  | block :: blocks' => block_events idx block ++ listing_events (S idx) blocks'
  end.

(** The calls of the final summary of the blocks. *)
Fixpoint recap_events (idx : nat) (blocks : list ErrorBlock) : list Event :=
  match blocks with
  | [] => []
  | block :: blocks' =>
      CoreInfo (newline ++ lit "  [" ++ number_to_string (idx + 1) ++ lit "] "
                ++ block_type block)
      :: CoreWarning (lit "      " ++ block_suggestion block)
      :: recap_events (S idx) blocks'
  end.

Definition summary_events (errorCount : nat) (blocks : list ErrorBlock) : list Event :=
  if (0 <? errorCount)%nat then
    [CoreInfo (lit "Total found " ++ number_to_string errorCount ++ lit " error(s).");
     CoreWarning (lit "Please carefully review the error messages and suggestions above.");
     FsWriteFile marker_path [];
     CoreInfo [];
     CoreInfo (repeat_char "=" 56);
     CoreInfo (lit "                    Error Summary");
     CoreInfo (repeat_char "=" 56)]
    ++ recap_events 0 blocks
    ++ [CoreInfo (newline ++ repeat_char "=" 56);
        CoreInfo (lit "Total: " ++ number_to_string errorCount ++ lit " error(s)");
        CoreInfo (repeat_char "=" 56)]
  else [CoreInfo (lit "No errors found.")].

(** All the calls of [analyzeErrors] on an existing log. *)
Definition analysis_events (logFile content : jsstring) : list Event :=
  [CoreInfo (lit "Analyzing log file: " ++ logFile); CoreInfo (repeat_char "-" 56)]
  ++ listing_events 0 (blocks_in content)
  ++ summary_events (errors_in content) (blocks_in content)
  ++ [CoreInfo (repeat_char "-" 56)].

(** The calls to [core.warning] and to [core.error] among some calls. *)
Definition warnings (out : list Event) : list jsstring :=
  omap (fun e => match e with CoreWarning m => Some m | _ => None end) out.

Definition errors (out : list Event) : list jsstring :=
  omap (fun e => match e with CoreError m => Some m | _ => None end) out.

(** An argument that starts with one of the prefixes. *)
Definition overrides (arg : jsstring) : bool :=
  existsb (fun prefix => startsWith prefix arg) dangerous.

(** What [disableLto] makes of the content of the file. *)
Definition lto_disabled (content : jsstring) : jsstring :=
  let content := replace_all (lit "CONFIG_LTO=y") (lit "CONFIG_LTO=n") content in
  let content :=
    replace_all (lit "CONFIG_LTO_CLANG=y") (lit "CONFIG_LTO_CLANG=n") content in
  let content :=
    replace_all (lit "CONFIG_THINLTO=y") (lit "CONFIG_THINLTO=n") content in
  if negb (includes (lit "CONFIG_LTO_NONE") content)
  then content ++ newline ++ lit "CONFIG_LTO_NONE=y" ++ newline
  else content.

(** [out] is [s] with some of its "y" turned into "n". *)
Definition turned (s out : jsstring) : Prop :=
  Forall2 (fun a b => b = a \/ (a = 121 /\ b = 110)) s out.

(** The four lines that [enableKvm] appends. *)
Definition kvm_lines : jsstring :=
  lit "CONFIG_VIRTUALIZATION=y" ++ newline ++ lit "CONFIG_KVM=y" ++ newline
  ++ lit "CONFIG_KVM_MMIO=y" ++ newline ++ lit "CONFIG_KVM_ARM_HOST=y" ++ newline.

(** Some end of [p], not all of it, starts the text [b]. *)
Definition straddles (p b : jsstring) : bool :=
  existsb (fun k => startsWith (drop k p) b) (seq 1 (length p - 1)).

(** The line that [disableLto] appends. *)
Definition lto_none_line : jsstring := newline ++ lit "CONFIG_LTO_NONE=y" ++ newline.

(** A configuration file and a disk that holds it. *)
Definition sample_config : jsstring :=
  lit "CONFIG_LTO=y" ++ newline ++ lit "CONFIG_LTO_CLANG=y" ++ newline
  ++ lit "# CONFIG_LTO_NONE is not set" ++ newline.

Definition config_path : jsstring := lit "out/.config".

Definition disk_with (content : jsstring) : Disk :=
  mkDisk {[ config_path := content ]} [].

(** * Properties *)

(** ** Strings and patterns *)

Lemma trimStart_nil s :
  trimStart s = [] <-> Forall (fun c => is_space c = true) s.
Proof.
  induction s as [|c s IH]; simpl.
  - split; auto.
  - destruct (is_space c) eqn:Hc.
    + rewrite IH. split; [intros H; constructor; auto | intros H; inversion H; auto].
    + split; [discriminate | intros H; inversion H; congruence].
Qed.

Lemma trimStart_head s c s' :
  trimStart s = c :: s' -> is_space c = false.
Proof.
  induction s as [|a s IH]; simpl; [discriminate|].
  destruct (is_space a) eqn:Ha; [auto | congruence].
Qed.

Lemma trim_nil s :
  trim s = [] <-> Forall (fun c => is_space c = true) s.
Proof.
  unfold trim, trimEnd. split.
  - intros H. apply trimStart_nil.
    destruct (trimStart s) as [|c s'] eqn:Hs; [done|].
    apply trimStart_head in Hs.
    apply (f_equal (@rev N)) in H. rewrite rev_involutive in H. simpl in H.
    apply trimStart_nil in H. rewrite Forall_forall in H.
    specialize (H c). rewrite H in Hs; [discriminate|].
    apply list_elem_of_In, in_or_app. right. by left.
  - intros H. apply trimStart_nil in H. rewrite H. reflexivity.
Qed.

Lemma truthy_trim s c :
  c ∈ s -> is_space c = false -> truthy (trim s) = true.
Proof.
  intros Hin Hc. destruct (trim s) eqn:Ht; [|done].
  apply trim_nil in Ht. rewrite Forall_forall in Ht.
  rewrite (Ht c Hin) in Hc. discriminate.
Qed.

Lemma search_true f s :
  search f s = true <-> exists pre suf, s = pre ++ suf /\ f suf = true.
Proof.
  induction s as [|c s IH]; simpl.
  - rewrite orb_false_r. split.
    + intros H. by exists [], [].
    + intros (pre & suf & Heq & H). symmetry in Heq.
      apply app_eq_nil in Heq as [_ ->]. done.
  - rewrite orb_true_iff, IH. split.
    + intros [H | (pre & suf & -> & H)].
      * by exists [], (c :: s).
      * by exists (c :: pre), suf.
    + intros (pre & suf & Heq & H). destruct pre as [|a pre]; simpl in Heq.
      * left. by subst suf.
      * right. injection Heq as -> ->. by exists pre, suf.
Qed.

Lemma search_ext f g s :
  (forall t, f t = g t) -> search f s = search g s.
Proof.
  intros Hfg. induction s as [|c s IH]; simpl; rewrite Hfg; [done|].
  by rewrite IH.
Qed.

Lemma test_true r s :
  test r s = true <->
  exists ts pre suf, ts ∈ alternatives r /\ s = pre ++ suf
                     /\ match_here (ignoreCase r) ts suf = true.
Proof.
  unfold test. rewrite existsb_exists. split.
  - intros (ts & Hin & H). apply search_true in H as (pre & suf & ? & ?).
    exists ts, pre, suf. by rewrite list_elem_of_In.
  - intros (ts & pre & suf & Hin & ? & ?). exists ts.
    rewrite <- list_elem_of_In. split; [done|]. apply search_true. eauto.
Qed.

(** A match of a sequence that starts with a pattern character starts with
    that character, up to case. *)
Lemma match_here_char i p ts s :
  match_here i (One (CChar p) :: ts) s = true ->
  exists c s', s = c :: s' /\ canonicalize c = canonicalize p.
Proof.
  simpl. destruct s as [|c s']; [discriminate|].
  rewrite andb_true_iff. intros [H _]. exists c, s'. split; [done|].
  destruct i; apply N.eqb_eq in H; congruence.
Qed.

(** No ASCII letter is white space, in either case. *)
Lemma letter_not_space c p :
  canonicalize c = canonicalize p ->
  ((65 <=? p) && (p <=? 90)) || ((97 <=? p) && (p <=? 122)) = true ->
  is_space c = false.
Proof.
  unfold canonicalize, is_space, is_line_terminator. intros Hc Hp.
  repeat match goal with
         | |- context [?a <=? ?b] => destruct (N.leb_spec a b); simpl in *
         | H : context [?a <=? ?b] |- _ => destruct (N.leb_spec a b); simpl in *
         end; try discriminate;
  repeat match goal with
         | |- context [?a =? ?b] => destruct (N.eqb_spec a b); simpl in *
         end; try reflexivity; lia.
Qed.

Lemma includes_head a needle s :
  includes (a :: needle) s = true -> a ∈ s.
Proof.
  unfold includes. rewrite search_true. intros (pre & suf & -> & H).
  destruct suf as [|c suf]; simpl in H; [discriminate|].
  apply andb_true_iff in H as [H _]. apply N.eqb_eq in H. subst c.
  apply list_elem_of_In, in_or_app. right. by left.
Qed.

Lemma chars_cons a s :
  chars (String a s) = One (CChar (N_of_ascii a)) :: chars s.
Proof. reflexivity. Qed.

(** A line that starts an error holds a letter, so it is not blank. *)
Lemma error_start_nonblank line :
  test error_start line = true -> truthy (trim line) = true.
Proof.
  intros H. apply test_true in H as (ts & pre & suf & Hin & -> & H).
  cbn [error_start re_i alternatives ignoreCase] in Hin, H.
  assert (Hmid : forall b c (x : N), x ∈ pre ++ b ++ x :: c)
    by (intros; apply list_elem_of_In; do 2 (apply in_or_app; right); by left).
  repeat (apply elem_of_cons in Hin as [-> | Hin]);
    [| | | by apply elem_of_nil in Hin].
  - cbn [space app] in H. destruct suf as [|w suf]; [discriminate|].
    apply andb_true_iff in H as [_ H]. rewrite chars_cons in H.
    apply match_here_char in H as (c & s' & -> & Hc).
    apply (truthy_trim _ c); [apply (Hmid [w]) | apply (letter_not_space _ _ Hc); reflexivity].
  - cbn [space app] in H. destruct suf as [|w suf]; [discriminate|].
    apply andb_true_iff in H as [_ H]. rewrite chars_cons in H.
    apply match_here_char in H as (c & s' & -> & Hc).
    apply (truthy_trim _ c); [apply (Hmid [w]) | apply (letter_not_space _ _ Hc); reflexivity].
  - rewrite chars_cons in H.
    apply match_here_char in H as (c & s' & -> & Hc).
    apply (truthy_trim _ c); [apply (Hmid []) | apply (letter_not_space _ _ Hc); reflexivity].
Qed.

Lemma note_nonblank line :
  includes (lit "note:") line = true -> truthy (trim line) = true.
Proof.
  intros H. apply includes_head in H. by apply (truthy_trim _ _ H).
Qed.

Lemma make_prefix_nonblank line :
  test make_prefix line = true -> truthy (trim line) = true.
Proof.
  intros H. apply test_true in H as (ts & pre & suf & Hin & -> & H).
  cbn [make_prefix re alternatives ignoreCase] in Hin, H.
  apply list_elem_of_singleton in Hin as ->.
  rewrite chars_cons in H. cbn [app] in H.
  apply match_here_char in H as (c & s' & -> & Hc).
  apply (truthy_trim _ c).
  - apply list_elem_of_In, in_or_app. right. by left.
  - apply (letter_not_space _ _ Hc); reflexivity.
Qed.

(** The two special clauses of the continuation test add nothing to the
    third. *)
Lemma continuation_nonblank line :
  continuation line = truthy (trim line).
Proof.
  unfold continuation.
  destruct (includes (lit "note:") line) eqn:Hn.
  - by rewrite (note_nonblank _ Hn).
  - destruct (test make_prefix line) eqn:Hm; [|done].
    rewrite (make_prefix_nonblank _ Hm). by rewrite orb_true_r.
Qed.

(** ** The segmenter *)

Section SegmenterFacts.

Variable classify : list jsstring -> jsstring * jsstring.
Variable continues : jsstring -> bool.

Local Abbreviation save_block := (save_block classify).
Local Abbreviation scan_line := (scan_line classify continues).
Local Abbreviation scan_lines := (scan_lines classify continues).
Local Abbreviation scan_log := (scan_log classify continues).
Local Abbreviation block_of := (block_of classify).

Lemma save_block_open st :
  processingError st = true -> currentErrorLines st <> [] ->
  save_block st = errorBlocks st ++ [block_of (currentErrorLines st)].
Proof.
  unfold save_block, block_of. intros -> Hne.
  destruct (currentErrorLines st); [done|]. simpl.
  by destruct (classify _).
Qed.

Lemma save_block_idle st :
  processingError st = false -> save_block st = errorBlocks st.
Proof. unfold save_block. by intros ->. Qed.

Lemma scan_lines_app st l1 l2 :
  scan_lines st (l1 ++ l2) = scan_lines (scan_lines st l1) l2.
Proof. apply fold_left_app. Qed.

Lemma scan_lines_cons st l ls :
  scan_lines st (l :: ls) = scan_lines (scan_line st l) ls.
Proof. reflexivity. Qed.

Lemma scan_line_trigger st line :
  test error_start line = true ->
  scan_line st line = mkScan (S (errorCount st)) (save_block st) [line] true.
Proof. unfold scan_line. by intros ->. Qed.

Lemma scan_line_open_nonempty st line :
  open_nonempty st -> open_nonempty (scan_line st line).
Proof.
  unfold open_nonempty, scan_line. intros Hst.
  destruct (test error_start line); [done|].
  destruct (processingError st && continues line) eqn:Hc; simpl; [|done].
  intros _ Heq. by apply app_eq_nil in Heq as [_ ?].
Qed.

Lemma scan_lines_open_nonempty st ls :
  open_nonempty st -> open_nonempty (scan_lines st ls).
Proof.
  revert st. induction ls as [|l ls IH]; intros st Hst; [done|].
  apply IH. by apply scan_line_open_nonempty.
Qed.

Lemma scan_init_open_nonempty : open_nonempty scan_init.
Proof. intros H. discriminate. Qed.

(** The counter counts the lines that start an error. *)
Lemma errorCount_scan_lines st ls :
  errorCount (scan_lines st ls) = (errorCount st + length (trigger_lines ls))%nat.
Proof.
  revert st. induction ls as [|l ls IH]; intros st.
  - simpl. lia.
  - rewrite scan_lines_cons, IH. unfold trigger_lines, scan_line. simpl.
    destruct (test error_start l); simpl; [lia|].
    destruct (processingError st && continues l); simpl; lia.
Qed.

(** Each saved block starts with the line that opened it: the first lines
    of the blocks are the lines that start an error, in order. *)
Lemma first_lines_scan_line st line :
  open_nonempty st ->
  map first_line (save_block (scan_line st line))
  = map first_line (save_block st) ++ trigger_lines [line].
Proof.
  intros Hst. unfold scan_line, trigger_lines. simpl.
  destruct (test error_start line) eqn:Ht.
  - rewrite save_block_open by done. simpl. by rewrite map_app.
  - rewrite app_nil_r.
    destruct (processingError st && continues line) eqn:Hc.
    + apply andb_true_iff in Hc as [Hp _].
      rewrite !save_block_open; simpl; auto.
      * rewrite !map_app. simpl. unfold first_line. simpl.
        specialize (Hst Hp). by destruct (currentErrorLines st).
      * intros Heq. by apply app_eq_nil in Heq as [_ ?].
    + by rewrite (save_block_idle (mkScan _ _ _ false)).
Qed.

Lemma first_lines_scan_lines st ls :
  open_nonempty st ->
  map first_line (save_block (scan_lines st ls))
  = map first_line (save_block st) ++ trigger_lines ls.
Proof.
  revert st. induction ls as [|l ls IH]; intros st Hst.
  - simpl. by rewrite app_nil_r.
  - rewrite scan_lines_cons, IH by by apply scan_line_open_nonempty.
    rewrite first_lines_scan_line by done. rewrite <- app_assoc. f_equal.
    unfold trigger_lines. simpl. by destruct (test error_start l).
Qed.

Lemma first_lines_scan_log ls :
  map first_line (scan_log ls).2 = trigger_lines ls.
Proof.
  unfold scan_log. simpl.
  by rewrite first_lines_scan_lines by apply scan_init_open_nonempty.
Qed.

Lemma scan_log_count ls :
  (scan_log ls).1 = length (trigger_lines ls)
  /\ length (scan_log ls).2 = length (trigger_lines ls).
Proof.
  split.
  - unfold scan_log. simpl. by rewrite errorCount_scan_lines.
  - by rewrite <- first_lines_scan_log, length_map.
Qed.

End SegmenterFacts.

Section SegmenterSplit.

Variable classify : list jsstring -> jsstring * jsstring.
Variable continues : jsstring -> bool.

Local Abbreviation save_block := (save_block classify).
Local Abbreviation scan_line := (scan_line classify continues).
Local Abbreviation scan_lines := (scan_lines classify continues).
Local Abbreviation scan_log := (scan_log classify continues).
Local Abbreviation block_of := (block_of classify).
Local Abbreviation scan_blocks := (scan_blocks classify continues).
Local Abbreviation headed := (headed classify).

Lemma save_block_rebase st :
  save_block st = errorBlocks st ++ save_block (rebase st).
Proof.
  unfold save_block, rebase. simpl.
  destruct (processingError st && _); [|by rewrite app_nil_r].
  by destruct (classify _).
Qed.

Lemma scan_line_rebase st line :
  errorBlocks (scan_line st line)
  = errorBlocks st ++ errorBlocks (scan_line (rebase st) line)
  /\ rebase (scan_line st line) = rebase (scan_line (rebase st) line).
Proof.
  unfold scan_line.
  destruct (test error_start line); simpl.
  - split; [apply save_block_rebase | done].
  - destruct (processingError st && continues line); simpl.
    + split; [by rewrite app_nil_r | done].
    + split; [apply save_block_rebase | done].
Qed.

(** Blocks closed earlier do not influence the rest of the scan. *)
Lemma scan_lines_rebase st ls :
  save_block (scan_lines st ls)
  = errorBlocks st ++ save_block (scan_lines (rebase st) ls).
Proof.
  revert st. induction ls as [|l ls IH]; intros st.
  - apply save_block_rebase.
  - rewrite !scan_lines_cons.
    rewrite (IH (scan_line st l)), (IH (scan_line (rebase st) l)).
    destruct (scan_line_rebase st l) as [-> ->].
    by rewrite app_assoc.
Qed.

(** A line that starts an error cuts the log: what comes before it and
    what comes from it on are segmented independently. *)
Lemma scan_blocks_trigger pre t rest :
  test error_start t = true ->
  scan_blocks (pre ++ t :: rest) = scan_blocks pre ++ scan_blocks (t :: rest).
Proof.
  intros Ht. unfold scan_blocks, scan_log. simpl.
  change (save_block (scan_lines scan_init (pre ++ t :: rest))
          = save_block (scan_lines scan_init pre)
            ++ save_block (scan_lines scan_init (t :: rest))).
  rewrite scan_lines_app, !scan_lines_cons.
  rewrite !(scan_line_trigger _ _ _ _ Ht).
  rewrite scan_lines_rebase. simpl.
  rewrite (scan_lines_rebase (mkScan 1 _ _ _)). simpl.
  done.
Qed.

(** Lines that continue an open error are appended to it. *)
Lemma scan_lines_continued n bs cur ms :
  Forall (fun l => test error_start l = false /\ continues l = true) ms ->
  scan_lines (mkScan n bs cur true) ms = mkScan n bs (cur ++ ms) true.
Proof.
  revert cur. induction ms as [|m ms IH]; intros cur Hms.
  - by rewrite app_nil_r.
  - inversion Hms as [|? ? [Ht Hc] Hms']; subst.
    rewrite scan_lines_cons. unfold scan_line. simpl.
    rewrite Ht, Hc. rewrite IH by done. by rewrite <- app_assoc.
Qed.

(** A line that neither starts nor continues an error closes the open one. *)
Lemma scan_line_closing n bs cur b :
  test error_start b = false -> continues b = false -> cur <> [] ->
  scan_line (mkScan n bs cur true) b = mkScan n (bs ++ [block_of cur]) [] false.
Proof.
  intros Ht Hc Hne. unfold scan_line. simpl. rewrite Ht, Hc.
  by rewrite save_block_open.
Qed.

(** An error followed by continuation lines and a closing line is one
    block. *)
Lemma scan_blocks_run t ms b post :
  test error_start t = true ->
  Forall (fun l => test error_start l = false /\ continues l = true) ms ->
  test error_start b = false -> continues b = false ->
  scan_blocks (t :: ms ++ b :: post) = block_of (t :: ms) :: scan_blocks post.
Proof.
  intros Ht Hms Hb Hc. unfold scan_blocks, scan_log. simpl.
  change (save_block (scan_lines scan_init (t :: ms ++ b :: post))
          = block_of (t :: ms) :: save_block (scan_lines scan_init post)).
  rewrite scan_lines_cons, scan_lines_app, scan_lines_cons.
  rewrite (scan_line_trigger _ _ _ _ Ht). simpl.
  rewrite scan_lines_continued by done.
  rewrite scan_line_closing by done.
  rewrite scan_lines_rebase. simpl. done.
Qed.

Lemma scan_line_headed t st line :
  open_nonempty st -> headed t st -> headed t (scan_line st line).
Proof.
  intros Hst (more & bs & Hsb). unfold headed, scan_line.
  destruct (test error_start line).
  - rewrite save_block_open by done. simpl. rewrite Hsb.
    by exists more, (bs ++ [block_of [line]]).
  - destruct (processingError st && continues line) eqn:Hc.
    + apply andb_true_iff in Hc as [Hp _]. specialize (Hst Hp).
      rewrite save_block_open in Hsb by done.
      rewrite save_block_open; simpl;
        [|done|intros Heq; by apply app_eq_nil in Heq as [_ ?]].
      destruct (errorBlocks st) as [|b bs'].
      * simpl in Hsb. injection Hsb as Hcur _ _ _. rewrite Hcur.
        by exists (more ++ [line]), [].
      * simpl in Hsb. injection Hsb as -> _. simpl. eauto.
    + rewrite (save_block_idle _ (mkScan _ _ _ false)) by done. simpl. eauto.
Qed.

Lemma scan_lines_headed t st ls :
  open_nonempty st -> headed t st -> headed t (scan_lines st ls).
Proof.
  revert st. induction ls as [|l ls IH]; intros st Hst Hh; [done|].
  rewrite scan_lines_cons. apply IH.
  - by apply scan_line_open_nonempty.
  - by apply scan_line_headed.
Qed.

(** The blocks of a log that begins with an error begin with a block that
    begins with that line. *)
Lemma scan_blocks_head t rest :
  test error_start t = true ->
  exists more bs, scan_blocks (t :: rest) = block_of (t :: more) :: bs.
Proof.
  intros Ht. unfold scan_blocks, scan_log. simpl.
  change (headed t (scan_lines (scan_line scan_init t) rest)).
  rewrite (scan_line_trigger _ _ _ _ Ht).
  apply scan_lines_headed.
  - intros _. done.
  - exists [], []. by rewrite save_block_open.
Qed.

End SegmenterSplit.

Section Classified.

Variable classify : list jsstring -> jsstring * jsstring.
Variable continues : jsstring -> bool.

Local Abbreviation classified := (classified classify).

Lemma save_block_classified st :
  open_nonempty st ->
  Forall classified (errorBlocks st) ->
  Forall classified (save_block classify st).
Proof.
  intros Hst Hbs. destruct (processingError st) eqn:Hp.
  - rewrite save_block_open by auto. apply Forall_app. split; [done|].
    constructor; [|constructor]. split; simpl; auto.
  - by rewrite save_block_idle.
Qed.

Lemma scan_line_classified st line :
  open_nonempty st ->
  Forall classified (errorBlocks st) ->
  Forall classified (errorBlocks (scan_line classify continues st line)).
Proof.
  intros Hst Hbs. unfold scan_line.
  destruct (test error_start line); simpl.
  - by apply save_block_classified.
  - destruct (processingError st && continues line); simpl; [done|].
    by apply save_block_classified.
Qed.

Lemma scan_blocks_classified ls :
  Forall classified (scan_blocks classify continues ls).
Proof.
  unfold scan_blocks, scan_log. simpl.
  assert (H : forall st, open_nonempty st -> Forall classified (errorBlocks st) ->
            open_nonempty (scan_lines classify continues st ls)
            /\ Forall classified (errorBlocks (scan_lines classify continues st ls))).
  { induction ls as [|l ls IH]; intros st Hst Hbs; [done|].
    rewrite scan_lines_cons. apply IH.
    - by apply scan_line_open_nonempty.
    - by apply scan_line_classified. }
  destruct (H scan_init) as [Ho Hc]; [apply scan_init_open_nonempty | constructor |].
  by apply save_block_classified.
Qed.

End Classified.

(** ** Effects of [analyzeErrors] *)

Lemma file_writes_app o1 o2 :
  file_writes (o1 ++ o2) = file_writes o1 ++ file_writes o2.
Proof. apply omap_app. Qed.

Lemma apply_writes_app ws1 ws2 fs :
  apply_writes (ws1 ++ ws2) fs = apply_writes ws2 (apply_writes ws1 fs).
Proof. apply foldl_app. Qed.

Lemma does_ret {A} (x : A) : does (mret x) x [].
Proof. intros [fs evs]. unfold mret, M_ret. simpl. by rewrite app_nil_r. Qed.

Lemma does_bind {A B} (m : M A) (f : A -> M B) x y o1 o2 :
  does m x o1 -> does (f x) y o2 -> does (m ≫= f) y (o1 ++ o2).
Proof.
  intros Hm Hf w. unfold mbind, M_bind. rewrite Hm, Hf. simpl.
  by rewrite file_writes_app, apply_writes_app, app_assoc.
Qed.

Lemma does_run {A B} (m : M A) (f : A -> M B) x o w :
  does m x o ->
  (m ≫= f) w = f x (mkWorld (apply_writes (file_writes o) (files w)) (events w ++ o)).
Proof. intros Hm. unfold mbind, M_bind. by rewrite Hm. Qed.

Lemma does_core_info message : does (core_info message) tt [CoreInfo message].
Proof. by intros w. Qed.

Lemma does_core_warning message : does (core_warning message) tt [CoreWarning message].
Proof. by intros w. Qed.

Lemma does_core_error message : does (core_error message) tt [CoreError message].
Proof. by intros w. Qed.

Lemma does_writeFileSync path data :
  does (writeFileSync path data) tt [FsWriteFile path data].
Proof. by intros w. Qed.

Lemma does_printSeparator : does printSeparator tt [CoreInfo (repeat_char "-" 56)].
Proof. apply does_core_info. Qed.

Lemma sink_only_info message : sink_only (core_info message).
Proof. eexists. split; [apply does_core_info | done]. Qed.

Lemma sink_only_warning message : sink_only (core_warning message).
Proof. eexists. split; [apply does_core_warning | done]. Qed.

Lemma sink_only_ret : sink_only (mret tt).
Proof. exists []. split; [apply does_ret | done]. Qed.

Lemma sink_only_seq (m1 m2 : M unit) :
  sink_only m1 -> sink_only m2 -> sink_only (m1;; m2).
Proof.
  intros (o1 & H1 & W1) (o2 & H2 & W2). exists (o1 ++ o2). split.
  - by apply does_bind with (x := tt).
  - by rewrite file_writes_app, W1, W2.
Qed.

Lemma sink_only_for_of {A} (xs : list A) body :
  (forall x, sink_only (body x)) -> sink_only (for_of xs body).
Proof.
  intros Hbody. induction xs as [|x xs IH]; simpl.
  - apply sink_only_ret.
  - by apply sink_only_seq.
Qed.

Lemma sink_only_for_idx idx blocks body :
  (forall i b, sink_only (body i b)) -> sink_only (for_idx idx blocks body).
Proof.
  intros Hbody. revert idx. induction blocks as [|b bs IH]; intros idx; simpl.
  - apply sink_only_ret.
  - by apply sink_only_seq.
Qed.

Create HintDb sink.

#[local] Hint Resolve sink_only_info sink_only_warning sink_only_ret
  sink_only_seq sink_only_for_of sink_only_for_idx : sink.

Lemma sink_only_printSeparator : sink_only printSeparator.
Proof. apply sink_only_info. Qed.

#[local] Hint Resolve sink_only_printSeparator : sink.

Lemma sink_only_display_blocks errorBlocks : sink_only (display_blocks errorBlocks).
Proof. unfold display_blocks. auto 10 with sink. Qed.

(** The summary writes the marker once when there are errors, and not at
    all when there are none. *)
Lemma summary_does errorCount errorBlocks :
  exists out,
    does (summary errorCount errorBlocks) tt out
    /\ file_writes out = if (0 <? errorCount)%nat then [(marker_path, [])] else [].
Proof.
  unfold summary. destruct (0 <? errorCount)%nat.
  - match goal with
    | |- context [writeFileSync marker_path [];; ?rest] =>
        assert (H2 : sink_only rest) by auto 20 with sink
    end.
    destruct H2 as (o2 & H2 & W2). eexists. split.
    + eapply does_bind; [apply does_core_info|].
      eapply does_bind; [apply does_core_warning|].
      eapply does_bind; [apply does_writeFileSync|].
      apply H2.
    + rewrite !file_writes_app, W2. reflexivity.
  - destruct (sink_only_info (lit "No errors found.")) as (o & H & W). eauto.
Qed.

Lemma bind_existsSync {B} path (f : bool -> M B) w :
  (existsSync path ≫= f) w = f (bool_decide (is_Some (files w !! path))) w.
Proof. reflexivity. Qed.

Lemma bind_readFileSync {B} path (f : jsstring -> M B) w content :
  files w !! path = Some content ->
  (readFileSync path ≫= f) w = f content w.
Proof. intros H. unfold mbind, M_bind, readFileSync. by rewrite H. Qed.

Lemma analyzeErrors_unfold logFile content w :
  files w !! logFile = Some content ->
  analyzeErrors logFile w
  = (core_info (lit "Analyzing log file: " ++ logFile);;
     printSeparator;;
     report content) w.
Proof.
  intros H. unfold analyzeErrors. rewrite bind_existsSync.
  rewrite bool_decide_eq_true_2 by eauto. cbn [negb].
  rewrite !(does_run _ _ _ _ _ (does_core_info _)).
  unfold printSeparator.
  rewrite !(does_run _ _ _ _ _ (does_core_info _)).
  rewrite (bind_readFileSync _ _ _ content) by done.
  unfold report, errors_in, blocks_in.
  by destruct (scan_log _ _ _).
Qed.

Lemma report_does content :
  exists out,
    does (report content) (errors_in content) out
    /\ file_writes out
       = if (0 <? errors_in content)%nat then [(marker_path, [])] else [].
Proof.
  destruct (sink_only_display_blocks (blocks_in content)) as (od & Hd & Wd).
  destruct (summary_does (errors_in content) (blocks_in content)) as (os & Hs & Ws).
  eexists. split.
  - unfold report.
    eapply does_bind; [apply Hd|].
    eapply does_bind; [apply Hs|].
    eapply does_bind; [apply does_printSeparator|].
    apply does_ret.
  - rewrite !file_writes_app, Wd, Ws. simpl. by rewrite app_nil_r.
Qed.

(** On an existing log the engine returns the counter, writes what the
    summary writes, and reports the path followed by lines that depend on
    the content only. *)
Lemma analyzeErrors_existing content :
  exists rest,
    file_writes rest
    = (if (0 <? errors_in content)%nat then [(marker_path, [])] else [])
    /\ forall logFile w,
        files w !! logFile = Some content ->
        analyzeErrors logFile w
        = (Some (errors_in content),
           mkWorld (apply_writes (file_writes rest) (files w))
                   (events w ++ CoreInfo (lit "Analyzing log file: " ++ logFile) :: rest)).
Proof.
  destruct (report_does content) as (out & Hout & Wout).
  exists (CoreInfo (repeat_char "-" 56) :: out). split.
  - exact Wout.
  - intros logFile w H. rewrite (analyzeErrors_unfold _ _ _ H).
    assert (Hall : does (core_info (lit "Analyzing log file: " ++ logFile);;
                         printSeparator;; report content)
                     (errors_in content)
                     ([CoreInfo (lit "Analyzing log file: " ++ logFile)]
                      ++ [CoreInfo (repeat_char "-" 56)] ++ out)).
    { eapply does_bind; [apply does_core_info|].
      eapply does_bind; [apply does_printSeparator|]. apply Hout. }
    rewrite Hall. done.
Qed.

Lemma analyzeErrors_missing logFile w :
  files w !! logFile = None ->
  analyzeErrors logFile w
  = (Some 0%nat,
     mkWorld (files w)
             (events w ++ [CoreError (lit "Log file '" ++ logFile ++ lit "' does not exist.")])).
Proof.
  intros H. unfold analyzeErrors. rewrite bind_existsSync.
  rewrite bool_decide_eq_false_2 by (rewrite H; by intros [? ?]). cbn [negb].
  rewrite (does_run _ _ _ _ _ (does_core_error _)). reflexivity.
Qed.

(** * The claims *)

(** C1. On an existing log file, the blocks of the report are as many as
    the lines of the log that start an error: the first lines of the blocks
    are exactly those lines, in order, every block is classified and not
    empty, these blocks are the ones displayed, and the engine returns this
    same number. *)
Theorem incidents_are_trigger_lines logFile content w :
  files w !! logFile = Some content ->
  let ls := split_nl content in
  let errorBlocks := blocks_in content in
  length errorBlocks = length (trigger_lines ls)
  /\ map first_line errorBlocks = trigger_lines ls
  /\ Forall (classified analyzeErrorBlock) errorBlocks
  /\ analyzeErrors logFile w
     = (core_info (lit "Analyzing log file: " ++ logFile);;
        printSeparator;;
        display_blocks errorBlocks;;
        summary (length (trigger_lines ls)) errorBlocks;;
        printSeparator;;
        mret (length (trigger_lines ls))) w
  /\ exists w', analyzeErrors logFile w = (Some (length (trigger_lines ls)), w').
Proof.
  intros H ls errorBlocks.
  assert (Hn : errors_in content = length (trigger_lines ls))
    by apply scan_log_count.
  split; [apply scan_log_count|].
  split; [apply first_lines_scan_log|].
  split; [apply scan_blocks_classified|].
  split.
  - rewrite (analyzeErrors_unfold _ _ _ H). unfold report. by rewrite Hn.
  - destruct (analyzeErrors_existing content) as (rest & _ & Hrun).
    rewrite (Hrun _ _ H), Hn. eauto.
Qed.

Lemma incidents_are_trigger_lines_witness :
  length (blocks_in scenario_log) = length (trigger_lines (split_nl scenario_log)).
Proof.
  apply (incidents_are_trigger_lines build_log scenario_log (world_with scenario_log)).
  vm_compute. reflexivity.
Defined.

(** C2. The end-to-end scenario: the four lines give two blocks, lines 1-2
    classified as a link error and line 4 alone classified as an
    unsupported compiler option; the engine returns 2 and writes the empty
    marker file, once. *)
Theorem scenario_two_incidents logFile w :
  files w !! logFile = Some scenario_log ->
  split_nl scenario_log
  = [lit "foo.c: error: undefined reference to 'bar'";
     lit "note: declared here";
     [];
     lit "baz.c: error: unrecognized command line option '-fxyz'"]
  /\ map lines (blocks_in scenario_log)
     = [[lit "foo.c: error: undefined reference to 'bar'"; lit "note: declared here"];
        [lit "baz.c: error: unrecognized command line option '-fxyz'"]]
  /\ map block_type (blocks_in scenario_log)
     = [lit "Link Error: Missing Library or Function";
        lit "Compiler Option Not Supported"]
  /\ exists out,
       analyzeErrors logFile w
       = (Some 2%nat, mkWorld (<[marker_path := []]> (files w)) (events w ++ out))
       /\ file_writes out = [(marker_path, [])].
Proof.
  intros H.
  split; [by vm_compute|]. split; [by vm_compute|]. split; [by vm_compute|].
  destruct (analyzeErrors_existing scenario_log) as (rest & Hw & Hrun).
  assert (Hn : errors_in scenario_log = 2%nat) by (by vm_compute).
  rewrite Hn in Hw, Hrun. simpl in Hw.
  eexists. split.
  - rewrite (Hrun _ _ H), Hw. reflexivity.
  - exact Hw.
Qed.

Lemma scenario_two_incidents_witness :
  map block_type (blocks_in scenario_log)
  = [lit "Link Error: Missing Library or Function";
     lit "Compiler Option Not Supported"].
Proof.
  apply (scenario_two_incidents build_log (world_with scenario_log)).
  vm_compute. reflexivity.
Defined.

(** C3. Whatever the path and the world, the engine returns a count and
    writes the empty marker file exactly once when the count is at least 1
    and not at all when it is 0; nothing else is written.  The count is the
    number of lines of the log that start an error, and 0 when the path
    holds no file: a log without such a line gives count 0 and no marker,
    and a log with at least one gives a count of at least 1 and the one
    write of the empty marker file, whatever their number. *)
Theorem marker_iff_errors logFile w :
  exists n out,
    analyzeErrors logFile w
    = (Some n, mkWorld (apply_writes (file_writes out) (files w)) (events w ++ out))
    /\ n = match files w !! logFile with
           | Some content => length (trigger_lines (split_nl content))
           | None => 0%nat
           end
    /\ file_writes out = (if (0 <? n)%nat then [(marker_path, [])] else [])
    /\ ((marker_path, []) ∈ file_writes out <-> (1 <= n)%nat)
    /\ (forall content,
          files w !! logFile = Some content ->
          trigger_lines (split_nl content) = [] ->
          n = 0%nat /\ file_writes out = []
          /\ apply_writes (file_writes out) (files w) = files w)
    /\ (forall content,
          files w !! logFile = Some content ->
          trigger_lines (split_nl content) <> [] ->
          (1 <= n)%nat /\ file_writes out = [(marker_path, [])]
          /\ apply_writes (file_writes out) (files w)
             = <[marker_path := []]> (files w)).
Proof.
  destruct (files w !! logFile) as [content|] eqn:H.
  - destruct (analyzeErrors_existing content) as (rest & Hw & Hrun).
    exists (errors_in content), (CoreInfo (lit "Analyzing log file: " ++ logFile) :: rest).
    assert (Hn : errors_in content = length (trigger_lines (split_nl content)))
      by apply scan_log_count.
    change (file_writes (CoreInfo (lit "Analyzing log file: " ++ logFile) :: rest))
      with (file_writes rest).
    split; [by apply Hrun|]. split; [exact Hn|]. split; [exact Hw|]. split; [|split].
    + rewrite Hw. destruct (errors_in content); simpl.
      * rewrite elem_of_nil. lia.
      * rewrite list_elem_of_singleton. split; [lia | done].
    + intros c [= <-] Hnone. rewrite Hnone in Hn. simpl in Hn.
      rewrite Hw, Hn. done.
    + intros c [= <-] Hsome. rewrite Hw.
      destruct (trigger_lines (split_nl content)) as [|t ts] eqn:Ht; [done|].
      rewrite Hn. simpl. split; [lia | done].
  - exists 0%nat, [CoreError (lit "Log file '" ++ logFile ++ lit "' does not exist.")].
    split; [by apply analyzeErrors_missing|]. split; [done|]. split; [done|].
    split; [|split].
    + simpl. rewrite elem_of_nil. lia.
    + intros c Hc. discriminate.
    + intros c Hc. discriminate.
Qed.

Lemma marker_iff_errors_witness :
  (analyzeErrors build_log (world_with (lit "  CC      drivers/foo.o"))).1
  = Some 0%nat
  /\ exists n out,
       analyzeErrors build_log (world_with scenario_log)
       = (Some n, mkWorld (apply_writes (file_writes out) {[ build_log := scenario_log ]})
                          ([] ++ out))
       /\ (1 <= n)%nat
       /\ file_writes out = [(marker_path, [])]
       /\ apply_writes (file_writes out) {[ build_log := scenario_log ]}
          = <[marker_path := []]> {[ build_log := scenario_log ]}.
Proof.
  split.
  - destruct (marker_iff_errors build_log (world_with (lit "  CC      drivers/foo.o")))
      as (n & out & Hrun & _ & _ & _ & Hnone & _).
    destruct (Hnone (lit "  CC      drivers/foo.o")) as [-> _].
    + vm_compute. reflexivity.
    + vm_compute. reflexivity.
    + rewrite Hrun. reflexivity.
  - destruct (marker_iff_errors build_log (world_with scenario_log))
      as (n & out & Hrun & _ & _ & _ & _ & Hsome).
    destruct (Hsome scenario_log) as (Hn & Hw & Hfs).
    + vm_compute. reflexivity.
    + vm_compute. discriminate.
    + exists n, out. split_and!; [exact Hrun | exact Hn | exact Hw | exact Hfs].
Defined.

(** C7. On a path that holds no file the engine reports that the log file
    does not exist through [core.error], returns 0 without throwing, and
    writes nothing. *)
Theorem missing_log_reported logFile w :
  files w !! logFile = None ->
  analyzeErrors logFile w
  = (Some 0%nat,
     mkWorld (files w)
             (events w ++ [CoreError (lit "Log file '" ++ logFile ++ lit "' does not exist.")])).
Proof. apply analyzeErrors_missing. Qed.

Lemma missing_log_reported_witness :
  analyzeErrors (lit "nowhere.log") (world_with scenario_log)
  = (Some 0%nat,
     mkWorld {[ build_log := scenario_log ]}
             [CoreError (lit "Log file 'nowhere.log' does not exist.")]).
Proof.
  apply (missing_log_reported (lit "nowhere.log") (world_with scenario_log)).
  vm_compute. reflexivity.
Defined.

(** C9. The outcome is a function of the content of the log: in any two
    worlds and under any two paths that hold the same content, the engine
    returns the same count, makes the same marker write, and reports the
    same lines after the line that echoes the path.  Under the same path the
    two reports are identical. *)
Theorem outcome_depends_on_content content logFile1 w1 logFile2 w2 :
  files w1 !! logFile1 = Some content ->
  files w2 !! logFile2 = Some content ->
  exists n rest,
    analyzeErrors logFile1 w1
    = (Some n, mkWorld (apply_writes (file_writes rest) (files w1))
                       (events w1 ++ CoreInfo (lit "Analyzing log file: " ++ logFile1) :: rest))
    /\ analyzeErrors logFile2 w2
       = (Some n, mkWorld (apply_writes (file_writes rest) (files w2))
                          (events w2 ++ CoreInfo (lit "Analyzing log file: " ++ logFile2) :: rest))
    /\ n = errors_in content.
Proof.
  intros H1 H2. destruct (analyzeErrors_existing content) as (rest & _ & Hrun).
  exists (errors_in content), rest. auto.
Qed.

Lemma outcome_depends_on_content_witness :
  (analyzeErrors build_log (world_with scenario_log)).1
  = (analyzeErrors (lit "copy.log")
       (mkWorld {[ lit "copy.log" := scenario_log ]} [CoreInfo (lit "earlier")])).1.
Proof.
  destruct (outcome_depends_on_content scenario_log
              build_log (world_with scenario_log)
              (lit "copy.log")
              (mkWorld {[ lit "copy.log" := scenario_log ]} [CoreInfo (lit "earlier")]))
    as (n & rest & -> & -> & _).
  - vm_compute. reflexivity.
  - vm_compute. reflexivity.
  - reflexivity.
Defined.

(** Run a second time on the world the first run left, the engine returns
    the same count and reports the same lines, and leaves the files as the
    first run left them. *)
Lemma analyzeErrors_twice logFile content w r w1 :
  files w !! logFile = Some content ->
  logFile <> marker_path ->
  analyzeErrors logFile w = (r, w1) ->
  exists out,
    events w1 = events w ++ out
    /\ analyzeErrors logFile w1 = (r, mkWorld (files w1) (events w1 ++ out)).
Proof.
  intros H Hne Hrun1.
  destruct (analyzeErrors_existing content) as (rest & Hw & Hrun).
  rewrite (Hrun _ _ H) in Hrun1. injection Hrun1 as <- <-.
  exists (CoreInfo (lit "Analyzing log file: " ++ logFile) :: rest).
  split; [done|]. cbn [files events].
  destruct (0 <? errors_in content)%nat; rewrite Hw in *;
    cbn [apply_writes foldl fst snd] in *.
  - rewrite Hrun by (cbn [files]; by rewrite lookup_insert_ne).
    cbn [files events]. by rewrite insert_insert_eq.
  - by rewrite Hrun.
Qed.

(** ** First match wins *)

Lemma scan_patterns_first (table : list ErrorPattern) text t s k sk :
  table !! k = Some sk ->
  matches text sk = true ->
  (forall k' s', (k' < k)%nat -> table !! k' = Some s' -> matches text s' = false) ->
  scan_patterns table text t s = (type sk, lit "Suggestion: " ++ suggestion sk).
Proof.
  unfold matches. revert k. induction table as [|p table IH]; intros k Hk Hm Hfirst.
  - discriminate.
  - simpl. destruct k as [|k].
    + injection Hk as ->. by rewrite Hm.
    + rewrite (Hfirst 0%nat p) by (done || lia).
      apply (IH k); [done | done |].
      intros k' s' Hlt Hs'. apply (Hfirst (S k')); [lia | done].
Qed.

Lemma scan_patterns_none table text t s :
  Forall (fun p => matches text p = false) table ->
  scan_patterns table text t s = (t, s).
Proof.
  unfold matches. induction 1 as [|p table Hp _ IH]; simpl; [done|].
  by rewrite Hp.
Qed.

(** Below a matching entry there is a first matching entry. *)
Lemma first_match_exists (table : list ErrorPattern) text i si :
  table !! i = Some si -> matches text si = true ->
  exists k sk,
    (k <= i)%nat /\ table !! k = Some sk /\ matches text sk = true
    /\ forall k' s', (k' < k)%nat -> table !! k' = Some s' -> matches text s' = false.
Proof.
  revert i. induction table as [|p table IH]; intros i Hi Hm; [discriminate|].
  destruct (matches text p) eqn:Hp.
  - exists 0%nat, p. split_and!; [lia | done | done | intros; lia].
  - destruct i as [|i]; [injection Hi as ->; congruence|].
    destruct (IH i Hi Hm) as (k & sk & Hle & Hk & Hmk & Hfirst).
    exists (S k), sk. split_and!; [lia | done | done |].
    intros [|k'] s' Hlt Hs'; [by injection Hs' as <- | apply (Hfirst k'); [lia | done]].
Qed.

(** C4. The classifier returns the category and the remediation of the
    first entry of the table, in declaration order, whose pattern matches
    the joined text of the block, and the entries after it are not looked
    at.  So when the entries at positions [i < j] both match, the result is
    that of a matching entry at a position [k <= i], the first one: it is the
    entry at [i] itself when no entry before [i] matches, and never depends
    on the entry at [j]. *)
Theorem first_match_wins (table : list ErrorPattern) ls i j si sj :
  table !! i = Some si -> table !! j = Some sj -> (i < j)%nat ->
  matches (join_nl ls) si = true ->
  matches (join_nl ls) sj = true ->
  exists k sk,
    (k <= i)%nat /\ table !! k = Some sk
    /\ matches (join_nl ls) sk = true
    /\ (forall k' s', (k' < k)%nat -> table !! k' = Some s' ->
                      matches (join_nl ls) s' = false)
    /\ analyzeErrorBlockWith table ls = (type sk, lit "Suggestion: " ++ suggestion sk)
    /\ (forall others,
          analyzeErrorBlockWith (take (S k) table ++ others) ls
          = analyzeErrorBlockWith table ls)
    /\ ((forall k' s', (k' < i)%nat -> table !! k' = Some s' ->
                       matches (join_nl ls) s' = false) -> k = i).
Proof.
  intros Hi Hj Hlt Hmi Hmj.
  destruct (first_match_exists _ _ _ _ Hi Hmi) as (k & sk & Hle & Hk & Hmk & Hfirst).
  assert (Hres : analyzeErrorBlockWith table ls
                 = (type sk, lit "Suggestion: " ++ suggestion sk))
    by (by apply (scan_patterns_first _ _ _ _ k)).
  assert (Hlen : (k < length table)%nat) by (by apply lookup_lt_Some in Hk).
  exists k, sk. split_and!; try done.
  - intros others. rewrite Hres. apply (scan_patterns_first _ _ _ _ k); [|done|].
    + rewrite lookup_app_l by (rewrite length_take; lia).
      rewrite lookup_take_lt by lia. done.
    + intros k' s' Hk' Hs'.
      rewrite lookup_app_l in Hs' by (rewrite length_take; lia).
      rewrite lookup_take_lt in Hs' by lia. by apply (Hfirst k').
  - intros Hnone. destruct (decide (k = i)) as [|Hne]; [done|].
    rewrite (Hnone k sk) in Hmk by (lia || done). discriminate.
Qed.

Lemma first_match_wins_witness :
  analyzeErrorBlock [werror_link_line]
  = (lit "Link Error: Missing Library or Function",
     lit "Suggestion: Check if required libraries are missing (e.g., -lssl, -lcrypto), if library paths are in LDFLAGS/LDLIBS, or if function names are misspelled.").
Proof.
  destruct (first_match_wins ERROR_PATTERNS [werror_link_line] 1%nat 14%nat
              (entry (re_i [chars "undefined reference to"])
                 "Link Error: Missing Library or Function"
                 "Check if required libraries are missing (e.g., -lssl, -lcrypto), if library paths are in LDFLAGS/LDLIBS, or if function names are misspelled.")
              (entry (re_i [chars "-Werror"])
                 "Warning Treated as Error"
                 "The compiler is treating warnings as errors due to -Werror flag. Either fix the underlying warning, or temporarily remove -Werror from CFLAGS/KBUILD_CFLAGS in the Makefile to allow compilation with warnings."))
    as (k & sk & _ & _ & _ & _ & Hres & _).
  - reflexivity.
  - reflexivity.
  - lia.
  - vm_compute. reflexivity.
  - vm_compute. reflexivity.
  - vm_compute. reflexivity.
Defined.

(** C5. When no entry of the table matches the joined text of a block,
    the classifier returns the default category and the default advice to
    use search engines; and every block of a report carries the
    classification that the classifier computes from its own lines. *)
Theorem unmatched_is_uncommon table ls :
  Forall (fun p => matches (join_nl ls) p = false) table ->
  analyzeErrorBlockWith table ls
  = (lit "Uncommon Error",
     lit "Please follow the compilation output error results and try to resolve using search engines")
  /\ forall content,
       Forall (fun b => (block_type b, block_suggestion b) = analyzeErrorBlock (lines b))
              (blocks_in content).
Proof.
  intros Hnone. split.
  - by apply scan_patterns_none.
  - intros content.
    assert (H := scan_blocks_classified analyzeErrorBlock continuation (split_nl content)).
    eapply Forall_impl; [exact H|].
    intros b [_ Hb]. simpl. rewrite Hb at 1 2. simpl.
    by destruct (analyzeErrorBlock (lines b)).
Qed.

Lemma unmatched_is_uncommon_witness :
  analyzeErrorBlock [syntax_error_line]
  = (lit "Uncommon Error",
     lit "Please follow the compilation output error results and try to resolve using search engines").
Proof.
  apply (unmatched_is_uncommon ERROR_PATTERNS [syntax_error_line]).
  unfold ERROR_PATTERNS.
  repeat (apply Forall_cons; split; [vm_compute; reflexivity|]).
  apply Forall_nil. exact I.
Defined.

(** ** Greedy continuation *)

Lemma blank_not_error_start line : blank line -> test error_start line = false.
Proof.
  intros Hb. destruct (test error_start line) eqn:Ht; [|done].
  apply error_start_nonblank in Ht. unfold blank in Hb. by rewrite Hb in Ht.
Qed.

Lemma blank_not_continuation line : blank line -> continuation line = false.
Proof. intros Hb. rewrite continuation_nonblank. unfold blank in Hb. by rewrite Hb. Qed.

Lemma nonblank_continuation line : ~ blank line -> continuation line = true.
Proof.
  intros Hb. rewrite continuation_nonblank. unfold blank in Hb.
  by destruct (trim line).
Qed.

(** C6. Greedy continuation.  Anywhere in a log, a line that starts an
    error, followed by any number of lines that are not blank and do not
    start an error, followed by a blank line, gives one block made of the
    first line and all of those lines.  A line that starts an error
    directly followed by another one gives a block with the first line
    alone, and then a block that starts with the second line. *)
Theorem greedy_continuation :
  (forall pre t ms b post,
      test error_start t = true ->
      Forall (fun l => test error_start l = false /\ ~ blank l) ms ->
      blank b ->
      incidents (pre ++ t :: ms ++ b :: post)
      = incidents pre ++ incident (t :: ms) :: incidents post)
  /\ (forall pre t1 t2 post,
        test error_start t1 = true ->
        test error_start t2 = true ->
        exists more later,
          incidents (pre ++ t1 :: t2 :: post)
          = incidents pre ++ incident [t1] :: incident (t2 :: more) :: later).
Proof.
  split.
  - intros pre t ms b post Ht Hms Hb. unfold incidents, incident.
    rewrite scan_blocks_trigger by done. f_equal.
    apply scan_blocks_run; try done.
    + eapply Forall_impl; [exact Hms|]. intros l [Hl Hnb].
      split; [done | by apply nonblank_continuation].
    + by apply blank_not_error_start.
    + by apply blank_not_continuation.
  - intros pre t1 t2 post Ht1 Ht2. unfold incidents, incident.
    rewrite scan_blocks_trigger by done.
    rewrite (scan_blocks_trigger _ _ [t1] t2 post) by done.
    destruct (scan_blocks_head analyzeErrorBlock continuation t2 post Ht2)
      as (more & later & ->).
    exists more, later. f_equal.
    change [t1] with ([t1] ++ []).
    unfold scan_blocks, scan_log. simpl.
    rewrite (scan_line_trigger _ _ _ _ Ht1). simpl.
    rewrite (save_block_open _ (mkScan _ _ _ _)) by done. done.
Qed.

Lemma greedy_continuation_witness :
  incidents [lit "cc1: note: starting";
             lit "a.c:1: error: unknown type name 'u8'";
             lit "  u8 x;";
             lit "  ^~";
             lit "   ";
             lit "done"]
  = [incident [lit "a.c:1: error: unknown type name 'u8'"; lit "  u8 x;"; lit "  ^~"]]
  /\ exists more later,
       incidents [lit "a.c:1: error: unknown type name 'u8'";
                  lit "b.c:2: fatal error: x.h: No such file or directory";
                  lit "compilation terminated."]
       = incident [lit "a.c:1: error: unknown type name 'u8'"]
         :: incident (lit "b.c:2: fatal error: x.h: No such file or directory" :: more)
         :: later.
Proof.
  split.
  - apply (proj1 greedy_continuation
             [lit "cc1: note: starting"]
             (lit "a.c:1: error: unknown type name 'u8'")
             [lit "  u8 x;"; lit "  ^~"]
             (lit "   ")
             [lit "done"]).
    + vm_compute. reflexivity.
    + repeat (apply Forall_cons; split;
              [split; [vm_compute; reflexivity | vm_compute; discriminate]|]).
      apply Forall_nil. exact I.
    + vm_compute. reflexivity.
  - apply (proj2 greedy_continuation
             []
             (lit "a.c:1: error: unknown type name 'u8'")
             (lit "b.c:2: fatal error: x.h: No such file or directory")
             [lit "compilation terminated."]).
    + vm_compute. reflexivity.
    + vm_compute. reflexivity.
Defined.

(** ** The test for the start of an error *)

Lemma match_here_chars needle s :
  match_here true (map (fun c => One (CChar c)) needle) s = starts_with_ci needle s.
Proof.
  revert s. induction needle as [|a needle IH]; intros s; [done|].
  destruct s as [|c s]; simpl; [done|]. by rewrite IH.
Qed.

Lemma test_error_start line :
  test error_start line = space_trigger line.
Proof.
  unfold test, space_trigger, space_then_ci, contains_ci.
  cbn [error_start re_i alternatives ignoreCase existsb].
  rewrite orb_false_r, orb_assoc.
  apply (f_equal2 orb); [apply (f_equal2 orb)|].
  - apply search_ext. intros [|w s]; [done|].
    cbn [space app match_here class_matches]. unfold chars.
    by rewrite match_here_chars.
  - apply search_ext. intros [|w s]; [done|].
    cbn [space app match_here class_matches]. unfold chars.
    by rewrite match_here_chars.
  - apply search_ext. intros s. unfold chars. by rewrite match_here_chars.
Qed.

(** C8, as stated, fails: a line with a tab before "error:" starts an
    error, although it contains none of the three strings. *)
Lemma tab_error_line_starts_error :
  spec_trigger tab_error_line = false
  /\ test error_start tab_error_line = true
  /\ forall st,
       scan_line analyzeErrorBlock continuation st tab_error_line
       = mkScan (S (errorCount st)) (save_block analyzeErrorBlock st)
                [tab_error_line] true.
Proof.
  split; [by vm_compute|]. split; [by vm_compute|].
  intros st. by apply scan_line_trigger.
Qed.

(** C8, amended.  A line starts a new block exactly when it contains, in
    any case, a white-space character followed by "error:", a white-space
    character followed by "fatal error:", or "undefined reference to": then
    the counter goes up by one and the line becomes the only line of the
    open block; any other line leaves the counter alone and either joins the
    open block or leaves no block open. *)
Theorem error_start_iff_space_trigger line st :
  test error_start line = space_trigger line
  /\ let st' := scan_line analyzeErrorBlock continuation st line in
     if space_trigger line
     then errorCount st' = S (errorCount st)
          /\ currentErrorLines st' = [line]
          /\ processingError st' = true
     else errorCount st' = errorCount st
          /\ ((processingError st = true
               /\ currentErrorLines st' = currentErrorLines st ++ [line])
              \/ (currentErrorLines st' = [] /\ processingError st' = false)).
Proof.
  split; [apply test_error_start|].
  rewrite <- test_error_start. unfold scan_line.
  destruct (test error_start line); simpl; [done|].
  destruct (processingError st && continuation line) eqn:Hc; simpl.
  - apply andb_true_iff in Hc as [Hp _]. auto.
  - auto.
Qed.

(** ** The continuation test *)

Lemma scan_lines_ext classify c1 c2 st ls :
  (forall l, c1 l = c2 l) ->
  scan_lines classify c1 st ls = scan_lines classify c2 st ls.
Proof.
  intros Hc. revert st. induction ls as [|l ls IH]; intros st; [done|].
  rewrite !scan_lines_cons, IH. f_equal. unfold scan_line. by rewrite Hc.
Qed.

(** C10. A line that contains "note:", and a line that matches
    [make[<n>]:] and contains "***", has a trimmed form that is not empty;
    so the segmenter whose only continuation rule is the non-empty trimmed
    form makes the same scan, the same count and the same blocks as the one
    of [analyzeErrors], for every list of lines and from every state. *)
Theorem special_continuations_redundant :
  (forall line, includes (lit "note:") line = true -> trim line <> [])
  /\ (forall line, test make_prefix line = true -> includes (lit "***") line = true ->
                   trim line <> [])
  /\ (forall line, continuation line = nonblank_only line)
  /\ (forall st ls,
        scan_lines analyzeErrorBlock nonblank_only st ls
        = scan_lines analyzeErrorBlock continuation st ls)
  /\ (forall ls,
        scan_log analyzeErrorBlock nonblank_only ls
        = scan_log analyzeErrorBlock continuation ls).
Proof.
  split_and!.
  - intros line H Ht. apply note_nonblank in H. by rewrite Ht in H.
  - intros line H _ Ht. apply make_prefix_nonblank in H. by rewrite Ht in H.
  - apply continuation_nonblank.
  - intros st ls. apply scan_lines_ext. intros l. symmetry. apply continuation_nonblank.
  - intros ls. unfold scan_log.
    rewrite (scan_lines_ext _ nonblank_only continuation); [done|].
    intros l. symmetry. apply continuation_nonblank.
Qed.

Lemma special_continuations_redundant_witness :
  trim (lit "include/x.h:3: note: declared here") <> []
  /\ trim (lit "make[2]: *** [scripts/Makefile.build:250: foo.o] Error 1") <> [].
Proof.
  split.
  - apply (proj1 special_continuations_redundant). vm_compute. reflexivity.
  - apply (proj1 (proj2 special_continuations_redundant)).
    + vm_compute. reflexivity.
    + vm_compute. reflexivity.
Defined.

(** * Further properties *)

(** ** Patterns at work on longer texts *)

Lemma star_loop_app ok (k : jsstring -> bool) s t :
  (forall u, k u = true -> k (u ++ t) = true) ->
  star_loop ok k s = true -> star_loop ok k (s ++ t) = true.
Proof.
  intros Hk. induction s as [|c s IH]; simpl.
  - rewrite orb_false_r. intros H. apply (Hk []) in H. simpl in H.
    destruct t; simpl; rewrite H; done.
  - rewrite !orb_true_iff, !andb_true_iff. intros [H | [Hc H]].
    + left. by apply (Hk (c :: s)).
    + right. auto.
Qed.

(** A match stays a match when text is added after it. *)
Lemma match_here_app i ts s t :
  match_here i ts s = true -> match_here i ts (s ++ t) = true.
Proof.
  revert s. induction ts as [|[a|a|a] ts IH]; intros s; simpl; [done| | |].
  - destruct s as [|c s]; simpl; [done|].
    rewrite !andb_true_iff. intros [Hc H]. auto.
  - apply star_loop_app. auto.
  - destruct s as [|c s]; simpl; [done|].
    rewrite !andb_true_iff. intros [Hc H]. split; [done|].
    revert H. apply star_loop_app. auto.
Qed.

(** A pattern found in a text is found in any text around it. *)
Lemma test_infix r before s after :
  test r s = true -> test r (before ++ s ++ after) = true.
Proof.
  rewrite !test_true. intros (ts & pre & suf & Hin & -> & H).
  exists ts, (before ++ pre), (suf ++ after). split; [done|]. split.
  - by rewrite <- !app_assoc.
  - by apply match_here_app.
Qed.

Lemma join_nl_cons l ls :
  ls <> [] -> join_nl (l :: ls) = l ++ 10 :: join_nl ls.
Proof. by destruct ls. Qed.

(** A line of a block is part of the text of the block. *)
Lemma join_nl_elem l ls :
  l ∈ ls -> exists before after, join_nl ls = before ++ l ++ after.
Proof.
  induction ls as [|x ls IH]; intros Hin; [by apply elem_of_nil in Hin|].
  destruct ls as [|y ls].
  - apply list_elem_of_singleton in Hin as ->. exists [], []. simpl.
    by rewrite app_nil_r.
  - rewrite join_nl_cons by done.
    apply elem_of_cons in Hin as [-> | Hin].
    + exists [], (10 :: join_nl (y :: ls)). done.
    + destruct (IH Hin) as (before & after & ->).
      exists (x ++ 10 :: before), after. by rewrite <- app_assoc.
Qed.

(** X1. A block is never classified worse than its lines: when a line of
    the block is matched by the entry at position [i], the block gets the
    category of a matching entry at a position [k <= i], and so never the
    default one.  Lines taken in by the greedy continuation can move the
    category to an earlier entry only. *)
Theorem line_match_classifies (table : list ErrorPattern) ls l i si :
  table !! i = Some si ->
  l ∈ ls ->
  matches l si = true ->
  exists k sk,
    (k <= i)%nat /\ table !! k = Some sk
    /\ matches (join_nl ls) sk = true
    /\ analyzeErrorBlockWith table ls = (type sk, lit "Suggestion: " ++ suggestion sk).
Proof.
  intros Hi Hl Hm.
  destruct (join_nl_elem _ _ Hl) as (before & after & Htext).
  assert (Hmi : matches (join_nl ls) si = true).
  { unfold matches in *. rewrite Htext. by apply test_infix. }
  destruct (first_match_exists _ _ _ _ Hi Hmi) as (k & sk & Hle & Hk & Hmk & Hfirst).
  exists k, sk. split_and!; try done.
  by apply (scan_patterns_first _ _ _ _ k).
Qed.

Lemma line_match_classifies_witness :
  exists k sk,
    (k <= 1)%nat /\ ERROR_PATTERNS !! k = Some sk
    /\ matches (join_nl [lit "ld: error: link failed"; lit "a.o: undefined reference to 'f'"]) sk = true
    /\ analyzeErrorBlock [lit "ld: error: link failed"; lit "a.o: undefined reference to 'f'"]
       = (type sk, lit "Suggestion: " ++ suggestion sk).
Proof.
  apply (line_match_classifies ERROR_PATTERNS
           [lit "ld: error: link failed"; lit "a.o: undefined reference to 'f'"]
           (lit "a.o: undefined reference to 'f'") 1%nat
           (entry (re_i [chars "undefined reference to"])
              "Link Error: Missing Library or Function"
              "Check if required libraries are missing (e.g., -lssl, -lcrypto), if library paths are in LDFLAGS/LDLIBS, or if function names are misspelled.")).
  - reflexivity.
  - apply elem_of_cons. right. apply elem_of_cons. by left.
  - vm_compute. reflexivity.
Defined.

(** ** The shape of the blocks *)

Section BlockShape.

Variable classify : list jsstring -> jsstring * jsstring.
Variable continues : jsstring -> bool.

Local Abbreviation save_block := (save_block classify).
Local Abbreviation scan_line := (scan_line classify continues).
Local Abbreviation scan_lines := (scan_lines classify continues).
Local Abbreviation block_of := (block_of classify).

Local Abbreviation opened := (opened continues).
Local Abbreviation scanned := (scanned classify continues).

Lemma run_of_snoc seen x b : run_of seen b -> run_of (seen ++ [x]) b.
Proof.
  intros (before & after & ->). exists before, (after ++ [x]).
  by rewrite <- !app_assoc.
Qed.

Lemma opened_nonempty cur : opened cur -> cur <> [].
Proof. by intros (t & rest & -> & _). Qed.

Lemma scanned_save_block seen st :
  scanned seen st ->
  Forall (fun b => opened (lines b) /\ run_of seen b) (save_block st).
Proof.
  intros [Hbs Hopen _].
  destruct (processingError st) eqn:Hp.
  - destruct (Hopen eq_refl) as [Hcur [before Hseen]].
    rewrite save_block_open by (done || by apply opened_nonempty).
    apply Forall_app. split; [done|]. constructor; [|constructor].
    split; [done|]. exists before, []. simpl. by rewrite app_nil_r.
  - by rewrite save_block_idle.
Qed.

Lemma scanned_snoc seen x (bs : list ErrorBlock) :
  Forall (fun b => opened (lines b) /\ run_of seen b) bs ->
  Forall (fun b => opened (lines b) /\ run_of (seen ++ [x]) b) bs.
Proof.
  intros H. eapply Forall_impl; [exact H|]. intros b [? ?]. split; [done|].
  by apply run_of_snoc.
Qed.

Lemma scanned_scan_line seen st x :
  scanned seen st -> scanned (seen ++ [x]) (scan_line st x).
Proof.
  intros Hst. assert (Hsave := scanned_snoc _ x _ (scanned_save_block _ _ Hst)).
  destruct Hst as [Hbs Hopen Hord]. unfold scan_line.
  destruct (test error_start x) eqn:Ht.
  - split; simpl.
    + done.
    + intros _. split.
      * exists x, []. split_and!; [done | done | constructor].
      * by exists seen.
    + rewrite save_block_open by done. simpl.
      rewrite map_app, concat_app. simpl.
      by apply sublist_app.
  - destruct (processingError st && continues x) eqn:Hc.
    + apply andb_true_iff in Hc as [Hp Hcx].
      destruct (Hopen Hp) as [(t & rest & Hcur & Htt & Hrest) [before Hseen]].
      split; simpl.
      * by apply scanned_snoc.
      * intros _. split.
        -- exists t, (rest ++ [x]). rewrite Hcur. split_and!; [done | done |].
           apply Forall_app. split; [done|]. by constructor.
        -- exists before. by rewrite Hseen, <- app_assoc.
      * rewrite save_block_open in Hord by (done || by rewrite Hcur).
        rewrite save_block_open; simpl;
          [|done|intros Heq; by apply app_eq_nil in Heq as [_ ?]].
        rewrite map_app, concat_app in *. simpl in *.
        rewrite app_nil_r in *. rewrite app_assoc. by apply sublist_app.
    + split; simpl.
      * done.
      * discriminate.
      * rewrite (save_block_idle _ (mkScan _ _ _ false)) by done. simpl.
        by apply sublist_inserts_r.
Qed.

Lemma scanned_scan_lines seen st ls :
  scanned seen st -> scanned (seen ++ ls) (scan_lines st ls).
Proof.
  revert seen st. induction ls as [|x ls IH]; intros seen st Hst.
  - by rewrite app_nil_r.
  - rewrite scan_lines_cons. replace (seen ++ x :: ls) with ((seen ++ [x]) ++ ls)
      by (by rewrite <- app_assoc).
    apply IH. by apply scanned_scan_line.
Qed.

Lemma scanned_init : scanned [] scan_init.
Proof. split; simpl; [constructor | discriminate | constructor]. Qed.

Lemma scan_blocks_shape ls :
  Forall (fun b => opened (lines b) /\ run_of ls b) (scan_blocks classify continues ls)
  /\ concat (map lines (scan_blocks classify continues ls)) `sublist_of` ls.
Proof.
  assert (H := scanned_scan_lines [] scan_init ls scanned_init).
  simpl in H. split.
  - by apply scanned_save_block.
  - by destruct H.
Qed.

End BlockShape.

(** X2. Every block of the segmenter is a run of consecutive lines of the
    log that starts with a line that starts an error and goes on with lines
    that do not start one and are not blank; and the blocks, one after the
    other, are taken from the log in its order, so no line is in two
    blocks. *)
Theorem blocks_are_runs ls :
  Forall (fun b => well_shaped b /\ run_of ls b) (incidents ls)
  /\ concat (map lines (incidents ls)) `sublist_of` ls.
Proof.
  destruct (scan_blocks_shape analyzeErrorBlock continuation ls) as [Hshape Hord].
  split; [|exact Hord].
  eapply Forall_impl; [exact Hshape|].
  intros b [(t & rest & Hb & Ht & Hrest) Hrun]. split; [|done].
  exists t, rest. split_and!; [done | done |].
  eapply Forall_impl; [exact Hrest|]. intros l [Hl Hc]. split; [done|].
  rewrite continuation_nonblank in Hc. intros Heq. by rewrite Heq in Hc.
Qed.

(** ** Splitting and joining *)

Lemma split_nl_nonempty s : split_nl s <> [].
Proof.
  destruct s as [|c s]; simpl; [done|].
  destruct (c =? 10); [done|]. by destruct (split_nl s).
Qed.

Lemma join_nl_split_nl s : join_nl (split_nl s) = s.
Proof.
  induction s as [|c s IH]; simpl; [done|].
  destruct (N.eqb_spec c 10) as [->|Hc].
  - rewrite join_nl_cons by apply split_nl_nonempty. by rewrite IH.
  - destruct (split_nl s) as [|l ls] eqn:Hs; [by destruct (split_nl_nonempty s)|].
    destruct ls as [|l' ls].
    + simpl in *. by rewrite IH.
    + rewrite join_nl_cons in * by done. cbn [app]. by rewrite IH.
Qed.

Lemma split_nl_no_newline s : Forall (fun l => 10 ∉ l) (split_nl s).
Proof.
  induction s as [|c s IH]; simpl.
  - constructor; [apply not_elem_of_nil | constructor].
  - destruct (N.eqb_spec c 10) as [->|Hc].
    + constructor; [apply not_elem_of_nil | done].
    + destruct (split_nl s) as [|l ls] eqn:Hs; [by destruct (split_nl_nonempty s)|].
      inversion IH; subst. constructor; [|done].
      rewrite not_elem_of_cons. split; [congruence | done].
Qed.

Lemma split_nl_line l : 10 ∉ l -> split_nl l = [l].
Proof.
  induction l as [|c l IH]; intros Hl; simpl; [done|].
  apply not_elem_of_cons in Hl as [Hc Hl].
  destruct (N.eqb_spec c 10); [congruence|]. by rewrite IH.
Qed.

Lemma split_nl_app_newline l t :
  10 ∉ l -> split_nl (l ++ 10 :: t) = l :: split_nl t.
Proof.
  induction l as [|c l IH]; intros Hl; simpl; [done|].
  apply not_elem_of_cons in Hl as [Hc Hl].
  destruct (N.eqb_spec c 10); [congruence|]. by rewrite IH.
Qed.

Lemma split_nl_join_nl ls :
  ls <> [] -> Forall (fun l => 10 ∉ l) ls -> split_nl (join_nl ls) = ls.
Proof.
  induction ls as [|l ls IH]; intros Hne Hls; [done|].
  inversion Hls as [|? ? Hl Hls']; subst.
  destruct ls as [|l' ls].
  - by apply split_nl_line.
  - rewrite join_nl_cons by done. rewrite split_nl_app_newline by done.
    by rewrite IH.
Qed.

(** X3. Splitting the log at line feeds loses nothing: the lines joined by
    line feeds are the log again.  No line holds a line feed, so the text
    that the classifier gets for a block, split again, is the lines of the
    block, one for one. *)
Theorem split_join_round_trip content :
  join_nl (split_nl content) = content
  /\ Forall (fun b => split_nl (join_nl (lines b)) = lines b) (blocks_in content).
Proof.
  split; [apply join_nl_split_nl|].
  destruct (scan_blocks_shape analyzeErrorBlock continuation (split_nl content))
    as [Hshape _].
  eapply Forall_impl; [exact Hshape|].
  intros b [Hopen (before & after & Hrun)].
  apply split_nl_join_nl; [by eapply opened_nonempty|].
  assert (H := split_nl_no_newline content). rewrite Hrun in H.
  apply Forall_app in H as [_ H]. by apply Forall_app in H as [H _].
Qed.

(** ** The case of letters *)

Ltac decide_cmp :=
  repeat match goal with
    | |- context [?a =? ?b] =>
        first [rewrite (proj2 (N.eqb_neq a b)) by lia
              | rewrite (proj2 (N.eqb_eq a b)) by lia]
    | |- context [?a <=? ?b] =>
        first [rewrite (proj2 (N.leb_gt a b)) by lia
              | rewrite (proj2 (N.leb_le a b)) by lia]
    end.

Lemma canonicalize_cases c :
  (97 <= c <= 122 /\ canonicalize c = c - 32) \/
  ((c < 97 \/ 122 < c) /\ canonicalize c = c).
Proof.
  unfold canonicalize.
  destruct (N.leb_spec 97 c), (N.leb_spec c 122); simpl; auto.
Qed.

Lemma canonicalize_idem c : canonicalize (canonicalize c) = canonicalize c.
Proof.
  destruct (canonicalize_cases c) as [[Hc ->] | [Hc ->]].
  - unfold canonicalize. by decide_cmp.
  - destruct (canonicalize_cases c) as [[Hc' ->] | [Hc' ->]]; [lia | done].
Qed.

Lemma is_line_terminator_canonicalize c :
  is_line_terminator (canonicalize c) = is_line_terminator c.
Proof.
  destruct (canonicalize_cases c) as [[Hc ->] | [Hc ->]]; [|done].
  unfold is_line_terminator. by decide_cmp.
Qed.

Lemma is_space_canonicalize c : is_space (canonicalize c) = is_space c.
Proof.
  destruct (canonicalize_cases c) as [[Hc ->] | [Hc ->]]; [|done].
  unfold is_space, is_line_terminator. by decide_cmp.
Qed.

Lemma is_digit_canonicalize c : is_digit (canonicalize c) = is_digit c.
Proof.
  destruct (canonicalize_cases c) as [[Hc ->] | [Hc ->]]; [|done].
  unfold is_digit. by decide_cmp.
Qed.

Lemma canonicalize_newline c : (canonicalize c =? 10) = (c =? 10).
Proof.
  destruct (canonicalize_cases c) as [[Hc ->] | [Hc ->]]; [|done].
  by decide_cmp.
Qed.

Lemma class_matches_upper a c :
  class_matches true a (canonicalize c) = class_matches true a c.
Proof.
  destruct a; simpl.
  - by rewrite canonicalize_idem.
  - apply is_digit_canonicalize.
  - apply is_space_canonicalize.
  - by rewrite is_line_terminator_canonicalize.
Qed.

Lemma star_loop_upper ok (k : jsstring -> bool) s :
  (forall c, ok (canonicalize c) = ok c) ->
  (forall t, k (upper_case t) = k t) ->
  star_loop ok k (upper_case s) = star_loop ok k s.
Proof.
  intros Hok Hk. induction s as [|c s IH]; [done|].
  change (upper_case (c :: s)) with (canonicalize c :: upper_case s).
  cbn [star_loop].
  change (canonicalize c :: upper_case s) with (upper_case (c :: s)).
  by rewrite Hk, Hok, IH.
Qed.

Lemma match_here_upper ts s :
  match_here true ts (upper_case s) = match_here true ts s.
Proof.
  revert s. induction ts as [|[a|a|a] ts IH]; intros s; simpl; [done| | |].
  - destruct s as [|c s]; simpl; [done|]. fold (upper_case s).
    by rewrite class_matches_upper, IH.
  - apply star_loop_upper; [apply class_matches_upper | done].
  - destruct s as [|c s]; simpl; [done|]. fold (upper_case s).
    rewrite class_matches_upper. f_equal.
    apply star_loop_upper; [apply class_matches_upper | done].
Qed.

Lemma search_upper (f : jsstring -> bool) s :
  (forall t, f (upper_case t) = f t) ->
  search f (upper_case s) = search f s.
Proof.
  intros Hf. induction s as [|c s IH]; [done|].
  change (upper_case (c :: s)) with (canonicalize c :: upper_case s).
  cbn [search].
  change (canonicalize c :: upper_case s) with (upper_case (c :: s)).
  by rewrite Hf, IH.
Qed.

(** A pattern with the [i] flag does not see the case of ASCII letters. *)
Lemma test_upper r s :
  ignoreCase r = true -> test r (upper_case s) = test r s.
Proof.
  intros Hi. unfold test. rewrite Hi.
  induction (alternatives r) as [|ts alts IH]; simpl; [done|].
  rewrite IH. f_equal. apply search_upper. apply match_here_upper.
Qed.

Lemma join_nl_upper ls :
  join_nl (map upper_case ls) = upper_case (join_nl ls).
Proof.
  induction ls as [|l ls IH]; [done|].
  destruct ls as [|l' ls]; [done|].
  change (map upper_case (l :: l' :: ls))
    with (upper_case l :: map upper_case (l' :: ls)).
  rewrite !join_nl_cons by done. rewrite IH.
  unfold upper_case. by rewrite map_app.
Qed.

Lemma split_nl_upper s :
  split_nl (upper_case s) = map upper_case (split_nl s).
Proof.
  induction s as [|c s IH]; simpl; [done|]. fold (upper_case s).
  rewrite canonicalize_newline, IH.
  destruct (c =? 10); [done|]. by destruct (split_nl s).
Qed.

Lemma trim_upper_nil s : trim (upper_case s) = [] <-> trim s = [].
Proof.
  rewrite !trim_nil. unfold upper_case. rewrite Forall_map.
  split; intros H; (eapply Forall_impl; [exact H|]); intros c Hc; simpl in *.
  - by rewrite is_space_canonicalize in Hc.
  - by rewrite is_space_canonicalize.
Qed.

Lemma continuation_upper l : continuation (upper_case l) = continuation l.
Proof.
  rewrite !continuation_nonblank.
  destruct (trim l) eqn:Hl.
  - apply (proj2 (trim_upper_nil l)) in Hl. by rewrite Hl.
  - destruct (trim (upper_case l)) eqn:Hu; [|done].
    apply (proj1 (trim_upper_nil l)) in Hu. rewrite Hl in Hu. discriminate.
Qed.

Lemma scan_patterns_upper table text t s :
  Forall (fun p => ignoreCase (pattern p) = true) table ->
  scan_patterns table (upper_case text) t s = scan_patterns table text t s.
Proof.
  induction 1 as [|p table Hp _ IH]; simpl; [done|].
  by rewrite test_upper, IH.
Qed.

Lemma analyzeErrorBlock_upper ls :
  analyzeErrorBlock (map upper_case ls) = analyzeErrorBlock ls.
Proof.
  unfold analyzeErrorBlock, analyzeErrorBlockWith. rewrite join_nl_upper.
  apply scan_patterns_upper. unfold ERROR_PATTERNS.
  repeat (apply Forall_cons; split; [reflexivity|]). by apply Forall_nil.
Qed.

Lemma save_block_upper st :
  save_block analyzeErrorBlock (upper_scan st)
  = map upper_block (save_block analyzeErrorBlock st).
Proof.
  unfold save_block, upper_scan. simpl. rewrite length_map.
  destruct (processingError st && _); [|done].
  rewrite analyzeErrorBlock_upper. destruct (analyzeErrorBlock _).
  by rewrite map_app.
Qed.

Lemma scan_line_upper st x :
  scan_line analyzeErrorBlock continuation (upper_scan st) (upper_case x)
  = upper_scan (scan_line analyzeErrorBlock continuation st x).
Proof.
  unfold scan_line. rewrite test_upper by done. rewrite continuation_upper.
  rewrite save_block_upper.
  destruct (test error_start x); [done|].
  change (processingError (upper_scan st)) with (processingError st).
  destruct (processingError st && continuation x); [|done].
  unfold upper_scan. simpl. by rewrite map_app.
Qed.

Lemma scan_lines_upper st ls :
  scan_lines analyzeErrorBlock continuation (upper_scan st) (map upper_case ls)
  = upper_scan (scan_lines analyzeErrorBlock continuation st ls).
Proof.
  revert st. induction ls as [|x ls IH]; intros st; [done|].
  change (map upper_case (x :: ls)) with (upper_case x :: map upper_case ls).
  by rewrite !scan_lines_cons, scan_line_upper, IH.
Qed.

Lemma scan_log_upper content :
  errors_in (upper_case content) = errors_in content
  /\ blocks_in (upper_case content) = map upper_block (blocks_in content).
Proof.
  unfold errors_in, blocks_in, scan_log. rewrite split_nl_upper.
  change scan_init with (upper_scan scan_init).
  rewrite scan_lines_upper. simpl. by rewrite save_block_upper.
Qed.

(** X4. The engine does not see the case of ASCII letters.  Two logs that
    are equal up to the case of their letters give the same count, blocks
    of the same lines up to case, and the same categories and remediations,
    block for block; in particular the classifier gives a block and its
    upper-case form the same classification. *)
Theorem letter_case_ignored content1 content2 :
  upper_case content1 = upper_case content2 ->
  errors_in content1 = errors_in content2
  /\ map (fun b => map upper_case (lines b)) (blocks_in content1)
     = map (fun b => map upper_case (lines b)) (blocks_in content2)
  /\ map block_type (blocks_in content1) = map block_type (blocks_in content2)
  /\ map block_suggestion (blocks_in content1)
     = map block_suggestion (blocks_in content2)
  /\ forall ls, analyzeErrorBlock (map upper_case ls) = analyzeErrorBlock ls.
Proof.
  intros Heq.
  destruct (scan_log_upper content1) as [Hn1 Hb1].
  destruct (scan_log_upper content2) as [Hn2 Hb2].
  rewrite Heq in Hn1, Hb1.
  assert (Hb : map upper_block (blocks_in content1)
               = map upper_block (blocks_in content2)) by congruence.
  split_and!.
  - congruence.
  - apply (f_equal (map lines)) in Hb. by rewrite !map_map in Hb.
  - apply (f_equal (map block_type)) in Hb. by rewrite !map_map in Hb.
  - apply (f_equal (map block_suggestion)) in Hb. by rewrite !map_map in Hb.
  - apply analyzeErrorBlock_upper.
Qed.

Lemma letter_case_ignored_witness :
  map block_type (blocks_in (lit "a.c: ERROR: Undefined Reference To 'f'"))
  = map block_type (blocks_in (lit "A.C: error: UNDEFINED reference to 'F'")).
Proof.
  apply (letter_case_ignored (lit "a.c: ERROR: Undefined Reference To 'f'")
                             (lit "A.C: error: UNDEFINED reference to 'F'")).
  vm_compute. reflexivity.
Defined.

(** ** The second alternative of the error-start pattern *)

Lemma starts_with_ci_app a b s :
  starts_with_ci (a ++ b) s = true ->
  exists s1 s2, s = s1 ++ s2 /\ starts_with_ci b s2 = true.
Proof.
  revert s. induction a as [|x a IH]; intros s; simpl.
  - intros H. by exists [], s.
  - destruct s as [|c s]; [discriminate|].
    rewrite andb_true_iff. intros [_ H].
    destruct (IH s H) as (s1 & s2 & -> & H2). by exists (c :: s1), s2.
Qed.

Lemma space_ci c : (canonicalize c =? canonicalize 32) = true -> c = 32.
Proof.
  intros H. apply N.eqb_eq in H. change (canonicalize 32) with 32 in H.
  destruct (canonicalize_cases c) as [[Hc Heq] | [Hc Heq]]; rewrite Heq in H; lia.
Qed.

Lemma fatal_error_is_error line :
  space_then_ci "fatal error:" line = true -> space_then_ci "error:" line = true.
Proof.
  unfold space_then_ci. rewrite !search_true.
  intros (pre & suf & -> & H). destruct suf as [|w rest]; [discriminate|].
  apply andb_true_iff in H as [_ H].
  change (lit "fatal error:") with (lit "fatal" ++ 32 :: lit "error:") in H.
  apply starts_with_ci_app in H as (s1 & s2 & -> & H).
  destruct s2 as [|sp s2]; [discriminate|]. cbn [starts_with_ci] in H.
  apply andb_true_iff in H as [Hsp H]. apply space_ci in Hsp as ->.
  exists (pre ++ w :: s1), (32 :: s2). split.
  - by rewrite <- app_assoc.
  - by rewrite H.
Qed.

(** X5. The alternative [\sfatal error:] of the error-start pattern adds
    nothing: a line that holds white space and "fatal error:" also holds
    white space and "error:", so the pattern without it accepts exactly the
    same lines. *)
Theorem fatal_alternative_redundant line :
  test error_start line = test error_start_short line.
Proof.
  rewrite test_error_start. unfold space_trigger.
  assert (Hshort : test error_start_short line
                   = space_then_ci "error:" line
                     || contains_ci "undefined reference to" line).
  { unfold test, space_then_ci, contains_ci.
    cbn [error_start_short re_i alternatives ignoreCase existsb].
    rewrite orb_false_r. apply (f_equal2 orb).
    - apply search_ext. intros [|w s]; [done|].
      cbn [space app match_here class_matches]. unfold chars.
      by rewrite match_here_chars.
    - apply search_ext. intros s. unfold chars. by rewrite match_here_chars. }
  rewrite Hshort.
  destruct (space_then_ci "fatal error:" line) eqn:Hf.
  - rewrite (fatal_error_is_error _ Hf). done.
  - by rewrite orb_false_r.
Qed.

(** ** What the engine prints *)

Lemma does_for_of_each {A} (xs : list A) body (e : A -> Event) :
  (forall x, does (body x) tt [e x]) ->
  does (for_of xs body) tt (map e xs).
Proof.
  intros Hbody. induction xs as [|x xs IH]; simpl.
  - apply does_ret.
  - apply (does_bind _ _ tt tt [e x]); [apply Hbody | apply IH].
Qed.

Lemma does_then {A} (m : M unit) (k : M A) e y o :
  does m tt [e] -> does k y o -> does (m;; k) y (e :: o).
Proof. intros Hm Hk. apply (does_bind m (fun _ => k) tt y [e] o Hm Hk). Qed.

Lemma does_display_blocks_from idx blocks :
  does (for_idx idx blocks (fun idx block =>
          core_info (lit "Error #" ++ number_to_string (idx + 1) ++ lit ":");;
          for_of (lines block) (fun errorLine => core_info (lit "  " ++ errorLine));;
          core_info (lit "Error: " ++ block_type block);;
          core_warning (lit "Suggestion: " ++ block_suggestion block);;
          printSeparator))
       tt (listing_events idx blocks).
Proof.
  revert idx. induction blocks as [|b bs IH]; intros idx; cbn [for_idx listing_events].
  - apply does_ret.
  - apply (does_bind _ _ tt tt (block_events idx b)); [|apply IH].
    unfold block_events.
    apply does_then; [apply does_core_info|].
    apply (does_bind _ _ tt tt (map (fun l => CoreInfo (lit "  " ++ l)) (lines b))).
    + apply does_for_of_each. intros x. apply does_core_info.
    + apply does_then; [apply does_core_info|].
      apply does_then; [apply does_core_warning|].
      apply does_printSeparator.
Qed.

Lemma does_recap_from idx blocks :
  does (for_idx idx blocks (fun idx block =>
          core_info (newline ++ lit "  [" ++ number_to_string (idx + 1) ++ lit "] "
                     ++ block_type block);;
          core_warning (lit "      " ++ block_suggestion block)))
       tt (recap_events idx blocks).
Proof.
  revert idx. induction blocks as [|b bs IH]; intros idx; cbn [for_idx recap_events].
  - apply does_ret.
  - apply (does_bind _ _ tt tt [_; _]); [|apply IH].
    apply does_then; [apply does_core_info|]. apply does_core_warning.
Qed.

Lemma does_summary errorCount blocks :
  does (summary errorCount blocks) tt (summary_events errorCount blocks).
Proof.
  unfold summary, summary_events. destruct (0 <? errorCount)%nat.
  - cbn [app].
    apply does_then; [apply does_core_info|].
    apply does_then; [apply does_core_warning|].
    apply does_then; [apply does_writeFileSync|].
    apply does_then; [apply does_core_info|].
    apply does_then; [apply does_core_info|].
    apply does_then; [apply does_core_info|].
    apply does_then; [apply does_core_info|].
    apply (does_bind _ _ tt tt (recap_events 0 blocks)); [apply does_recap_from|].
    apply does_then; [apply does_core_info|].
    apply does_then; [apply does_core_info|].
    apply does_core_info.
  - apply does_core_info.
Qed.

(** The calls of [analyzeErrors] on an existing log, in closed form. *)
Lemma analyzeErrors_events logFile content w :
  files w !! logFile = Some content ->
  analyzeErrors logFile w
  = (Some (errors_in content),
     mkWorld (apply_writes (file_writes (analysis_events logFile content)) (files w))
             (events w ++ analysis_events logFile content)).
Proof.
  intros H. rewrite (analyzeErrors_unfold _ _ _ H).
  assert (Hall : does (core_info (lit "Analyzing log file: " ++ logFile);;
                       printSeparator;; report content)
                      (errors_in content) (analysis_events logFile content)).
  { unfold analysis_events, report. cbn [app].
    apply does_then; [apply does_core_info|].
    apply does_then; [apply does_printSeparator|].
    apply (does_bind _ _ tt _ (listing_events 0 (blocks_in content)));
      [apply does_display_blocks_from|].
    apply (does_bind _ _ tt _ (summary_events (errors_in content) (blocks_in content)));
      [apply does_summary|].
    apply does_then; [apply does_printSeparator|].
    apply does_ret. }
  apply Hall.
Qed.

(** X6. A log without a line that starts an error, the empty log
    included, gives count 0 and exactly four calls: the line that echoes
    the path, a separator, "No errors found." and a separator; no file is
    written. *)
Theorem quiet_log_output logFile content w :
  files w !! logFile = Some content ->
  trigger_lines (split_nl content) = [] ->
  analyzeErrors logFile w
  = (Some 0%nat,
     mkWorld (files w)
             (events w ++ [CoreInfo (lit "Analyzing log file: " ++ logFile);
                           CoreInfo (repeat_char "-" 56);
                           CoreInfo (lit "No errors found.");
                           CoreInfo (repeat_char "-" 56)])).
Proof.
  intros H Hnone. rewrite (analyzeErrors_events _ _ _ H).
  assert (Hn : errors_in content = length (trigger_lines (split_nl content)))
    by apply scan_log_count.
  assert (Hlen : length (blocks_in content) = length (trigger_lines (split_nl content)))
    by apply scan_log_count.
  rewrite Hnone in Hn, Hlen. simpl in Hn, Hlen.
  unfold analysis_events. rewrite Hn.
  destruct (blocks_in content); [|discriminate]. reflexivity.
Qed.

Lemma quiet_log_output_witness :
  (analyzeErrors build_log (world_with [])).1 = Some 0%nat.
Proof.
  rewrite (quiet_log_output build_log [] (world_with [])).
  - reflexivity.
  - vm_compute. reflexivity.
  - vm_compute. reflexivity.
Defined.

Lemma warnings_app o1 o2 : warnings (o1 ++ o2) = warnings o1 ++ warnings o2.
Proof. apply omap_app. Qed.

Lemma errors_app o1 o2 : errors (o1 ++ o2) = errors o1 ++ errors o2.
Proof. apply omap_app. Qed.

Lemma warnings_cons e out :
  warnings (e :: out)
  = match e with CoreWarning m => m :: warnings out | _ => warnings out end.
Proof. by destruct e. Qed.

Lemma errors_cons e out :
  errors (e :: out)
  = match e with CoreError m => m :: errors out | _ => errors out end.
Proof. by destruct e. Qed.

Lemma warnings_infos {A} (f : A -> jsstring) xs :
  warnings (map (fun x => CoreInfo (f x)) xs) = []
  /\ errors (map (fun x => CoreInfo (f x)) xs) = [].
Proof. induction xs as [|x xs [IH1 IH2]]; simpl; auto. Qed.

Lemma warnings_listing idx blocks :
  warnings (listing_events idx blocks)
  = map (fun b => lit "Suggestion: " ++ block_suggestion b) blocks
  /\ errors (listing_events idx blocks) = [].
Proof.
  revert idx. induction blocks as [|b bs IH]; intros idx; [done|].
  cbn [listing_events]. rewrite warnings_app, errors_app.
  destruct (IH (S idx)) as [-> ->]. unfold block_events.
  change (CoreInfo ?m :: ?l) with ([CoreInfo m] ++ l).
  rewrite !warnings_app, !errors_app.
  destruct (warnings_infos (fun l => lit "  " ++ l) (lines b)) as [-> ->].
  done.
Qed.

Lemma warnings_recap idx blocks :
  warnings (recap_events idx blocks)
  = map (fun b => lit "      " ++ block_suggestion b) blocks
  /\ errors (recap_events idx blocks) = [].
Proof.
  revert idx. induction blocks as [|b bs IH]; intros idx; [done|].
  cbn [recap_events]. destruct (IH (S idx)) as [IH1 IH2].
  split.
  - change (warnings (?a :: CoreWarning ?m :: ?l)) with (m :: warnings l).
    by rewrite IH1.
  - exact IH2.
Qed.

(** X7. On an existing log the engine never calls [core.error], and its
    calls to [core.warning] are, in order: for each block "Suggestion: "
    followed by the remediation of the block; then, when the count is not
    0, the notice to review the messages and, for each block again, its
    remediation after six spaces.  With [n] blocks that is [2 n + 1]
    warnings, or none when [n = 0]. *)
Theorem warnings_of_analysis logFile content w :
  files w !! logFile = Some content ->
  exists out w',
    analyzeErrors logFile w = (Some (errors_in content), w')
    /\ events w' = events w ++ out
    /\ errors out = []
    /\ warnings out
       = map (fun b => lit "Suggestion: " ++ block_suggestion b) (blocks_in content)
         ++ (if (0 <? errors_in content)%nat
             then lit "Please carefully review the error messages and suggestions above."
                  :: map (fun b => lit "      " ++ block_suggestion b) (blocks_in content)
             else [])
    /\ length (warnings out)
       = (if (0 <? errors_in content)%nat then 2 * errors_in content + 1 else 0)%nat.
Proof.
  intros H. eexists _, _. split; [apply (analyzeErrors_events _ _ _ H)|].
  split; [reflexivity|].
  assert (Hn : errors_in content = length (trigger_lines (split_nl content)))
    by apply scan_log_count.
  assert (Hlen : length (blocks_in content) = length (trigger_lines (split_nl content)))
    by apply scan_log_count.
  rewrite <- Hn in Hlen.
  unfold analysis_events. rewrite !warnings_app, !errors_app.
  destruct (warnings_listing 0 (blocks_in content)) as [-> ->].
  assert (Hsum : warnings (summary_events (errors_in content) (blocks_in content))
                 = (if (0 <? errors_in content)%nat
                    then lit "Please carefully review the error messages and suggestions above."
                         :: map (fun b => lit "      " ++ block_suggestion b)
                              (blocks_in content)
                    else [])
                 /\ errors (summary_events (errors_in content) (blocks_in content)) = []).
  { unfold summary_events. destruct (0 <? errors_in content)%nat; [|done].
    rewrite !warnings_app, !errors_app.
    destruct (warnings_recap 0 (blocks_in content)) as [-> ->].
    rewrite !warnings_cons, !errors_cons. cbn [warnings errors omap app].
    by rewrite app_nil_r. }
  destruct Hsum as [-> ->].
  rewrite !warnings_cons, !errors_cons. cbn [warnings errors omap app].
  rewrite !app_nil_r. split; [done|]. split; [done|].
  - change (warnings []) with (@nil jsstring). cbn [app].
    rewrite length_app, length_map.
    destruct (0 <? errors_in content)%nat eqn:Hpos; cbn [length].
    + rewrite length_map. lia.
    + apply Nat.ltb_ge in Hpos. lia.
Qed.

Lemma warnings_of_analysis_witness :
  exists out w',
    analyzeErrors build_log (world_with scenario_log) = (Some (errors_in scenario_log), w')
    /\ events w' = [] ++ out
    /\ errors out = []
    /\ length (warnings out) = 5%nat.
Proof.
  destruct (warnings_of_analysis build_log scenario_log (world_with scenario_log))
    as (out & w' & Hrun & Hev & Herr & _ & Hlen).
  - vm_compute. reflexivity.
  - exists out, w'. split_and!; [exact Hrun | exact Hev | exact Herr | exact Hlen].
Defined.

Lemma scan_patterns_cases table text t s :
  scan_patterns table text t s = (t, s)
  \/ exists p, p ∈ table /\ matches text p = true
               /\ scan_patterns table text t s
                  = (type p, lit "Suggestion: " ++ suggestion p).
Proof.
  induction table as [|p table IH]; simpl; [by left|].
  destruct (test (pattern p) text) eqn:Hp.
  - right. exists p. split_and!; [by left | done | done].
  - destruct IH as [IH | (q & Hq & Hm & IH)]; [by left|].
    right. exists q. split_and!; [by right | done | done].
Qed.

Lemma listing_warning_in idx blocks b :
  b ∈ blocks ->
  CoreWarning (lit "Suggestion: " ++ block_suggestion b) ∈ listing_events idx blocks.
Proof.
  revert idx. induction blocks as [|x bs IH]; intros idx Hb;
    [by apply elem_of_nil in Hb|].
  cbn [listing_events]. apply elem_of_app.
  apply elem_of_cons in Hb as [-> | Hb]; [left | right; by apply IH].
  unfold block_events. apply elem_of_cons. right.
  apply elem_of_app. right. apply elem_of_cons. right. apply elem_of_cons. by left.
Qed.

(** X8. The remediation that the classifier returns for a matched block
    already starts with "Suggestion: ", and the listing puts "Suggestion: "
    before the remediation of every block.  So in the listing the warning
    of a block matched by a table entry reads "Suggestion: Suggestion: "
    followed by the remediation of that entry, and the warning of an
    unmatched block reads "Suggestion: " followed by the default advice. *)
Theorem listing_doubles_prefix logFile content w b :
  files w !! logFile = Some content ->
  b ∈ blocks_in content ->
  exists w',
    analyzeErrors logFile w = (Some (errors_in content), w')
    /\ ((block_type b = lit "Uncommon Error"
         /\ CoreWarning (lit "Suggestion: Please follow the compilation output error results and try to resolve using search engines")
            ∈ events w')
        \/ (exists sk,
              sk ∈ ERROR_PATTERNS
              /\ matches (join_nl (lines b)) sk = true
              /\ block_type b = type sk
              /\ CoreWarning (lit "Suggestion: Suggestion: " ++ suggestion sk)
                 ∈ events w')).
Proof.
  intros H Hb. eexists. split; [apply (analyzeErrors_events _ _ _ H)|].
  cbn [events].
  assert (Hin : CoreWarning (lit "Suggestion: " ++ block_suggestion b)
                ∈ events w ++ analysis_events logFile content).
  { apply elem_of_app. right. unfold analysis_events.
    apply elem_of_app. right. apply elem_of_app. left.
    by apply listing_warning_in. }
  assert (Hcls := scan_blocks_classified analyzeErrorBlock continuation (split_nl content)).
  rewrite Forall_forall in Hcls. destruct (Hcls b Hb) as [_ Heq].
  assert (Hts : (block_type b, block_suggestion b) = analyzeErrorBlock (lines b)).
  { rewrite Heq at 1 2. simpl. by destruct (analyzeErrorBlock (lines b)). }
  unfold analyzeErrorBlock, analyzeErrorBlockWith in Hts.
  destruct (scan_patterns_cases ERROR_PATTERNS (join_nl (lines b))
              default_type default_suggestion) as [Hd | (sk & Hsk & Hm & Hd)];
    rewrite Hd in Hts;
    assert (Ht := f_equal fst Hts); assert (Hs := f_equal snd Hts);
    cbn [fst snd] in Ht, Hs; rewrite Hs in Hin.
  - left. split; [exact Ht | exact Hin].
  - right. exists sk. split_and!; [done | done | done |].
    rewrite app_assoc in Hin. exact Hin.
Qed.

Lemma listing_doubles_prefix_witness :
  exists w',
    analyzeErrors build_log
      (world_with (lit "a.c: error: undefined reference to 'f'"))
    = (Some (errors_in (lit "a.c: error: undefined reference to 'f'")), w').
Proof.
  destruct (listing_doubles_prefix build_log
              (lit "a.c: error: undefined reference to 'f'")
              (world_with (lit "a.c: error: undefined reference to 'f'"))
              (incident [lit "a.c: error: undefined reference to 'f'"]))
    as (w' & Hrun & _).
  - vm_compute. reflexivity.
  - apply list_elem_of_singleton. vm_compute. reflexivity.
  - exists w'. exact Hrun.
Defined.

(** ** [analyzeBuildErrors] *)

Lemma errors_analysis_events logFile content :
  errors (analysis_events logFile content) = [].
Proof.
  unfold analysis_events, summary_events. rewrite !errors_app.
  destruct (warnings_listing 0 (blocks_in content)) as [_ ->].
  destruct (0 <? errors_in content)%nat; [|done].
  rewrite !errors_app.
  by destruct (warnings_recap 0 (blocks_in content)) as [_ ->].
Qed.

(** X9. [analyzeBuildErrors] never throws and never calls [core.error]:
    when <kernelDir>/out/build.log is missing it makes one call, a warning
    that the build log was not found, and writes nothing; when the log
    exists it makes exactly the calls of [analyzeErrors] on it.  The
    "does not exist" branch of [analyzeErrors] is never taken from here. *)
Theorem build_log_guarded path_join kernelDir w :
  let logFile := path_join [kernelDir; lit "out"; lit "build.log"] in
  exists out,
    analyzeBuildErrors path_join kernelDir w
    = (Some tt, mkWorld (apply_writes (file_writes out) (files w)) (events w ++ out))
    /\ errors out = []
    /\ (files w !! logFile = None ->
        out = [CoreWarning (lit "Build log not found: " ++ logFile)])
    /\ (forall content,
          files w !! logFile = Some content ->
          out = analysis_events logFile content
          /\ (analyzeErrors logFile w).2
             = mkWorld (apply_writes (file_writes out) (files w)) (events w ++ out)).
Proof.
  intros logFile. unfold analyzeBuildErrors. fold logFile.
  rewrite bind_existsSync.
  destruct (files w !! logFile) as [content|] eqn:H.
  - rewrite bool_decide_eq_true_2 by eauto.
    exists (analysis_events logFile content).
    unfold mbind, M_bind. rewrite (analyzeErrors_events _ _ _ H).
    split_and!; [done | apply errors_analysis_events | done |].
    by intros c [= <-].
  - rewrite bool_decide_eq_false_2 by (by intros [? ?]).
    exists [CoreWarning (lit "Build log not found: " ++ logFile)].
    split_and!; [done | done | done | done].
Qed.

(** ** [filterMakeArgs] *)

Lemma does_keep_arg prefixes arg :
  does (keep_arg prefixes arg)
       (negb (existsb (fun prefix => startsWith prefix arg) prefixes))
       (if existsb (fun prefix => startsWith prefix arg) prefixes
        then [CoreWarning (lit "Ignoring override of critical variable: " ++ arg)]
        else []).
Proof.
  induction prefixes as [|p ps IH]; cbn [keep_arg existsb].
  - apply does_ret.
  - destruct (startsWith p arg); cbn [orb negb]; [|exact IH].
    apply (does_bind _ _ tt false [_] []); [apply does_core_warning | apply does_ret].
Qed.

Lemma does_bind_ret {A B} (m : M A) (f : A -> B) x o :
  does m x o -> does (y ← m; mret (f y)) (f x) o.
Proof.
  intros Hm. rewrite <- (app_nil_r o).
  apply (does_bind m _ x (f x) o []); [exact Hm | apply does_ret].
Qed.

Lemma does_filterMakeArgs args :
  does (filterMakeArgs args)
       (List.filter (fun arg => negb (overrides arg)) args)
       (map (fun arg => CoreWarning (lit "Ignoring override of critical variable: " ++ arg))
            (List.filter overrides args)).
Proof.
  unfold filterMakeArgs. induction args as [|arg args IH]; cbn [array_filter List.filter].
  - apply does_ret.
  - assert (Hk := does_keep_arg dangerous arg). fold (overrides arg) in Hk.
    destruct (overrides arg); cbn [negb] in *.
    + apply (does_bind _ _ false _ [_] _ Hk).
      apply (does_bind_ret _ (fun kept => kept)), IH.
    + apply (does_bind _ _ true _ [] _ Hk).
      apply (does_bind_ret _ (fun kept => arg :: kept)), IH.
Qed.

Lemma file_writes_warnings {A} (f : A -> jsstring) xs :
  file_writes (map (fun x => CoreWarning (f x)) xs) = []
  /\ errors (map (fun x => CoreWarning (f x)) xs) = []
  /\ warnings (map (fun x => CoreWarning (f x)) xs) = map f xs.
Proof.
  induction xs as [|x xs (IH1 & IH2 & IH3)]; [done|].
  split_and!; [exact IH1 | exact IH2 |].
  cbn [map]. rewrite warnings_cons. by rewrite IH3.
Qed.

Lemma filter_sublist {A} (f : A -> bool) l : List.filter f l `sublist_of` l.
Proof.
  induction l as [|x l IH]; simpl; [constructor|].
  destruct (f x); by constructor.
Qed.

Lemma overrides_false arg :
  overrides arg = false <-> Forall (fun prefix => startsWith prefix arg = false) dangerous.
Proof.
  unfold overrides. induction dangerous as [|p ps IH]; simpl.
  - split; [constructor | done].
  - rewrite orb_false_iff, IH. split.
    + intros [? ?]. by constructor.
    + intros H. by inversion H.
Qed.

Lemma filterMakeArgs_run args w :
  filterMakeArgs args w
  = (Some (List.filter (fun arg => negb (overrides arg)) args),
     mkWorld (files w)
             (events w
              ++ map (fun arg => CoreWarning (lit "Ignoring override of critical variable: " ++ arg))
                   (List.filter overrides args))).
Proof.
  rewrite (does_filterMakeArgs args w).
  by destruct (file_writes_warnings
                 (fun arg => lit "Ignoring override of critical variable: " ++ arg)
                 (List.filter overrides args)) as [-> _].
Qed.

(** X10. [filterMakeArgs] never throws and writes no file.  The arguments
    it returns are arguments of the input, in their order; none of them
    starts with one of the twenty prefixes; and every argument of the input
    that starts with none of them is returned. *)
Theorem filtered_args_safe args w :
  exists kept w',
    filterMakeArgs args w = (Some kept, w')
    /\ files w' = files w
    /\ kept `sublist_of` args
    /\ Forall (fun arg => Forall (fun prefix => startsWith prefix arg = false) dangerous)
              kept
    /\ (forall arg,
          arg ∈ args ->
          Forall (fun prefix => startsWith prefix arg = false) dangerous ->
          arg ∈ kept).
Proof.
  eexists _, _. split; [apply filterMakeArgs_run|].
  split_and!; [done | apply filter_sublist | |].
  - apply Forall_forall. intros arg Hin.
    apply list_elem_of_In, filter_In in Hin as [_ Hin].
    apply overrides_false. by destruct (overrides arg).
  - intros arg Hin Hsafe. apply list_elem_of_In, filter_In.
    split; [by apply list_elem_of_In|].
    apply overrides_false in Hsafe. by rewrite Hsafe.
Qed.

(** X11. [filterMakeArgs] warns once for every argument it drops, in the
    order of the input, naming the argument, and makes no other call: the
    returned and the dropped arguments together are as many as the input, and
    an argument is dropped only when it starts with one of the prefixes. *)
Theorem dropped_args_warned args w :
  exists kept out,
    filterMakeArgs args w = (Some kept, mkWorld (files w) (events w ++ out))
    /\ out = map (fun arg => CoreWarning (lit "Ignoring override of critical variable: " ++ arg))
                 (List.filter overrides args)
    /\ (length kept + length out = length args)%nat
    /\ Forall (fun arg => exists prefix,
                 prefix ∈ dangerous /\ startsWith prefix arg = true)
              (List.filter overrides args).
Proof.
  eexists _, _. split; [apply filterMakeArgs_run|]. split; [done|]. split.
  - rewrite length_map. induction args as [|arg args IH]; simpl; [done|].
    destruct (overrides arg); simpl; lia.
  - apply Forall_forall. intros arg Hin.
    apply list_elem_of_In, filter_In in Hin as [_ Hin].
    unfold overrides in Hin. apply existsb_exists in Hin as (p & Hp & Hs).
    exists p. by rewrite list_elem_of_In.
Qed.

(** X12. Filtering is idempotent: run again on the arguments it returned,
    [filterMakeArgs] returns them all and makes no call. *)
Theorem filter_twice args w kept w' :
  filterMakeArgs args w = (Some kept, w') ->
  filterMakeArgs kept w' = (Some kept, w').
Proof.
  rewrite filterMakeArgs_run. intros [= <- <-]. rewrite filterMakeArgs_run.
  assert (Hkeep : forall l, List.filter (fun arg => negb (overrides arg))
                              (List.filter (fun arg => negb (overrides arg)) l)
                            = List.filter (fun arg => negb (overrides arg)) l).
  { induction l as [|x l IH]; simpl; [done|].
    destruct (overrides x) eqn:Hx; simpl; [done|]. by rewrite Hx, IH. }
  assert (Hdrop : forall l, List.filter overrides
                              (List.filter (fun arg => negb (overrides arg)) l) = []).
  { induction l as [|x l IH]; simpl; [done|].
    destruct (overrides x) eqn:Hx; simpl; [done|]. by rewrite Hx. }
  rewrite Hkeep, Hdrop. simpl. by rewrite app_nil_r.
Qed.

Lemma filter_twice_witness :
  filterMakeArgs [lit "V=1"; lit "KCFLAGS=-O3"] (mkWorld ∅ [CoreWarning (lit "Ignoring override of critical variable: CC=gcc")])
  = (Some [lit "V=1"; lit "KCFLAGS=-O3"],
     mkWorld ∅ [CoreWarning (lit "Ignoring override of critical variable: CC=gcc")]).
Proof.
  apply (filter_twice [lit "V=1"; lit "CC=gcc"; lit "KCFLAGS=-O3"] (mkWorld ∅ [])).
  vm_compute. reflexivity.
Defined.

(** X13. Filtering a concatenation is filtering its parts one after the
    other: the returned arguments are those of the first part followed by
    those of the second, and the warnings come in the same order. *)
Theorem filter_concat args1 args2 w :
  exists kept1 w1 kept2 w2,
    filterMakeArgs args1 w = (Some kept1, w1)
    /\ filterMakeArgs args2 w1 = (Some kept2, w2)
    /\ filterMakeArgs (args1 ++ args2) w = (Some (kept1 ++ kept2), w2).
Proof.
  eexists _, _, _, _. split; [apply filterMakeArgs_run|].
  split; [apply filterMakeArgs_run|].
  rewrite filterMakeArgs_run, !List.filter_app, map_app. cbn [files events].
  by rewrite app_assoc.
Qed.

(** ** Replacing all matches of a literal pattern *)

Lemma startsWith_split p s :
  startsWith p s = true -> s = p ++ drop (length p) s.
Proof.
  revert s. induction p as [|a p IH]; intros s; simpl; [done|].
  destruct s as [|c s]; [discriminate|].
  rewrite andb_true_iff, N.eqb_eq. intros [-> H]. simpl. f_equal. by apply IH.
Qed.

Lemma startsWith_app_same p s : startsWith p (p ++ s) = true.
Proof. induction p as [|a p IH]; simpl; [done|]. by rewrite N.eqb_refl. Qed.

Lemma replace_from_skip p r k s :
  (k <= length s)%nat -> replace_from p r k s = replace_all p r (drop k s).
Proof.
  unfold replace_all. revert k. induction s as [|c s IH]; intros k Hk.
  - simpl in Hk. by replace k with 0%nat by lia.
  - destruct k as [|k]; [done|]. simpl in *. apply IH. lia.
Qed.

Lemma replace_all_match p r s :
  p <> [] -> startsWith p s = true ->
  replace_all p r s = r ++ replace_all p r (drop (length p) s).
Proof.
  intros Hp Hs. assert (Hsplit := startsWith_split _ _ Hs).
  destruct p as [|a p]; [done|]. destruct s as [|c s]; [discriminate|].
  unfold replace_all at 1. cbn [replace_from]. rewrite Hs. f_equal.
  rewrite replace_from_skip.
  - simpl. by rewrite Nat.sub_0_r.
  - apply (f_equal (@length _)) in Hsplit. simpl in *.
    rewrite length_app in Hsplit. lia.
Qed.

Lemma replace_all_skip p r c s :
  startsWith p (c :: s) = false ->
  replace_all p r (c :: s) = c :: replace_all p r s.
Proof. intros Hs. unfold replace_all. cbn [replace_from]. by rewrite Hs. Qed.

(** Without a match nothing is replaced. *)
Lemma replace_all_none p r s :
  includes p s = false -> replace_all p r s = s.
Proof.
  unfold includes. induction s as [|c s IH]; [done|].
  cbn [search]. rewrite orb_false_iff. intros [Hs Hrest].
  rewrite replace_all_skip by done. by rewrite IH.
Qed.

Lemma turned_refl s : turned s s.
Proof. apply Forall2_same_length_lookup_2; [done|]. intros i a b ? ?. left. congruence. Qed.

Lemma turned_trans s1 s2 s3 : turned s1 s2 -> turned s2 s3 -> turned s1 s3.
Proof.
  unfold turned. intros H12. revert s3.
  induction H12 as [|a b s1 s2 Hab _ IH]; intros s3 H23; inversion H23; subst.
  - constructor.
  - constructor; [|by apply IH].
    destruct Hab as [-> | [-> ->]]; [done|].
    match goal with H : _ \/ _ |- _ => destruct H as [-> | [? _]] end;
      [by right | lia].
Qed.

Lemma turned_length s out : turned s out -> length out = length s.
Proof. intros H. symmetry. by eapply Forall2_length. Qed.

(** Replacing a pattern that ends in "y" by the same with "n" instead
    turns some "y" into "n" and changes nothing else. *)
Lemma turned_replace_all q s :
  turned s (replace_all (q ++ [121]) (q ++ [110]) s).
Proof.
  remember (length s) as n eqn:Hn. revert s Hn.
  induction n as [n IH] using lt_wf_ind. intros s Hn.
  destruct s as [|c s]; [constructor|].
  destruct (startsWith (q ++ [121]) (c :: s)) eqn:Hs.
  - rewrite replace_all_match by (done || by destruct q).
    assert (Hsplit := startsWith_split _ _ Hs).
    set (rest := drop (length (q ++ [121])) (c :: s)) in *.
    rewrite Hsplit at 1. rewrite <- !app_assoc.
    apply Forall2_app; [apply turned_refl|].
    cbn [app]. constructor; [by right|].
    apply (IH (length rest)); [|done].
    apply (f_equal (@length _)) in Hsplit. rewrite !length_app in Hsplit.
    simpl in *. lia.
  - rewrite replace_all_skip by done. constructor; [by left|].
    apply (IH (length s)); [simpl in Hn; lia | done].
Qed.

(** A pattern without "n" found in the turned text was in the text. *)
Lemma startsWith_turned_back p s out :
  110 ∉ p -> turned s out -> startsWith p out = true -> startsWith p s = true.
Proof.
  intros Hp Ht. revert p Hp. induction Ht as [|a b s out Hab _ IH]; intros p Hp.
  - by destruct p.
  - destruct p as [|x p]; [done|]. simpl.
    apply not_elem_of_cons in Hp as [Hx Hp].
    rewrite !andb_true_iff, !N.eqb_eq. intros [-> H]. split; [|by apply IH].
    destruct Hab as [-> | [_ ->]]; [done | congruence].
Qed.

(** A pattern without "y" found in the text is in the turned text. *)
Lemma startsWith_turned p s out :
  121 ∉ p -> turned s out -> startsWith p s = true -> startsWith p out = true.
Proof.
  intros Hp Ht. revert p Hp. induction Ht as [|a b s out Hab _ IH]; intros p Hp.
  - by destruct p.
  - destruct p as [|x p]; [done|]. simpl.
    apply not_elem_of_cons in Hp as [Hx Hp].
    rewrite !andb_true_iff, !N.eqb_eq. intros [-> H]. split; [|by apply IH].
    destruct Hab as [-> | [-> _]]; [done | congruence].
Qed.

Lemma includes_true p s :
  includes p s = true <-> exists pre suf, s = pre ++ suf /\ startsWith p suf = true.
Proof. apply search_true. Qed.

Lemma includes_turned_back p s out :
  110 ∉ p -> turned s out -> includes p out = true -> includes p s = true.
Proof.
  intros Hp Ht. rewrite !includes_true. intros (pre & suf & -> & H).
  apply Forall2_app_inv_r in Ht as (pre' & suf' & _ & Ht & ->).
  exists pre', suf'. split; [done|]. by eapply startsWith_turned_back.
Qed.

Lemma includes_turned p s out :
  121 ∉ p -> turned s out -> includes p s = true -> includes p out = true.
Proof.
  intros Hp Ht. rewrite !includes_true. intros (pre & suf & -> & H).
  apply Forall2_app_inv_l in Ht as (pre' & suf' & _ & Ht & ->).
  exists pre', suf'. split; [done|]. by eapply startsWith_turned.
Qed.

Lemma startsWith_over p u v :
  startsWith p (u ++ 110 :: v) = true -> (length u < length p)%nat -> 110 ∈ p.
Proof.
  revert u. induction p as [|a p IH]; intros u; simpl; [lia|].
  destruct u as [|c u]; simpl.
  - rewrite andb_true_iff, N.eqb_eq. intros [-> _] _. by left.
  - rewrite andb_true_iff. intros [_ H] Hlen. right. apply (IH u); [done | lia].
Qed.

(** After the replacement no match of the pattern is left. *)
Lemma replace_all_gone q s :
  110 ∉ q ->
  includes (q ++ [121]) (replace_all (q ++ [121]) (q ++ [110]) s) = false.
Proof.
  intros Hq.
  assert (Hp : 110 ∉ q ++ [121]).
  { rewrite elem_of_app. intros [? | H]; [done|].
    apply list_elem_of_singleton in H. lia. }
  assert (Hno : forall pre suf,
             replace_all (q ++ [121]) (q ++ [110]) s = pre ++ suf ->
             startsWith (q ++ [121]) suf = false).
  { remember (length s) as n eqn:Hn. revert s Hn.
    induction n as [n IH] using lt_wf_ind. intros s Hn pre suf Heq.
    destruct s as [|c s].
    - unfold replace_all in Heq. simpl in Heq. symmetry in Heq.
      apply app_eq_nil in Heq as [_ ->]. by destruct q.
    - destruct (startsWith (q ++ [121]) (c :: s)) eqn:Hs.
      + rewrite replace_all_match in Heq by (done || by destruct q).
        assert (Hsplit := startsWith_split _ _ Hs).
        set (rest := drop (length (q ++ [121])) (c :: s)) in *.
        assert (Hlen : (length rest < n)%nat).
        { apply (f_equal (@length _)) in Hsplit. rewrite !length_app in Hsplit.
          simpl in *. lia. }
        apply app_eq_inv in Heq as [(k & Hr & Hsuf) | (k & Hpre & Hrest)].
        * destruct k as [|x k _] using rev_ind.
          -- simpl in Hsuf. subst suf. by apply (IH _ Hlen rest eq_refl []).
          -- rewrite app_assoc in Hr. apply app_inj_tail in Hr as [Hq' <-].
             subst suf. rewrite <- app_assoc.
             destruct (startsWith (q ++ [121]) (k ++ [110] ++ _)) eqn:Hk; [|done].
             apply startsWith_over in Hk; [done|].
             apply (f_equal (@length _)) in Hq'. rewrite !length_app in *.
             simpl. lia.
        * by apply (IH _ Hlen rest eq_refl k).
      + rewrite replace_all_skip in Heq by done.
        destruct pre as [|x pre]; simpl in Heq.
        * subst suf.
          destruct (startsWith (q ++ [121]) (c :: replace_all _ _ s)) eqn:Hk; [|done].
          apply (startsWith_turned_back _ (c :: s)) in Hk; [congruence | done |].
          rewrite <- replace_all_skip by done. apply turned_replace_all.
        * injection Heq as _ Heq.
          apply (IH (length s)) with (s := s) (pre := pre); [simpl in Hn; lia | done | done]. }
  destruct (includes _ _) eqn:Hin; [|done].
  apply includes_true in Hin as (pre & suf & Heq & Hs).
  by rewrite (Hno pre suf Heq) in Hs.
Qed.

(** ** Looking for a needle in a concatenation *)

Lemma startsWith_more p s t : startsWith p s = true -> startsWith p (s ++ t) = true.
Proof.
  revert s. induction p as [|a p IH]; intros s; simpl; [done|].
  destruct s as [|c s]; [discriminate|]. simpl.
  rewrite !andb_true_iff. intros [? ?]. auto.
Qed.

Lemma includes_app_l p a b : includes p a = true -> includes p (a ++ b) = true.
Proof.
  rewrite !includes_true. intros (pre & suf & -> & H).
  exists pre, (suf ++ b). split; [by rewrite app_assoc | by apply startsWith_more].
Qed.

Lemma includes_app_r p a b : includes p b = true -> includes p (a ++ b) = true.
Proof.
  rewrite !includes_true. intros (pre & suf & -> & H).
  exists (a ++ pre), suf. by rewrite app_assoc.
Qed.

Lemma startsWith_app p a b :
  startsWith p (a ++ b) = true ->
  startsWith p a = true
  \/ ((length a < length p)%nat /\ startsWith (drop (length a) p) b = true).
Proof.
  revert a. induction p as [|x p IH]; intros a; [by left|].
  destruct a as [|c a].
  - intros H. right. split; [simpl; lia | done].
  - simpl. rewrite !andb_true_iff. intros [Hx H].
    destruct (IH a H) as [Ha | [Hlen Hb]]; [by left|].
    right. split; [lia | done].
Qed.

Lemma includes_app p a b :
  includes p (a ++ b) = true ->
  includes p a = true \/ includes p b = true \/ straddles p b = true.
Proof.
  rewrite !includes_true. intros (pre & suf & Heq & H).
  apply app_eq_inv in Heq as [(k & -> & ->) | (k & -> & ->)].
  - apply startsWith_app in H as [H | [Hlen H]].
    + left. eauto.
    + right. destruct k as [|x k].
      * left. by exists [], b.
      * right. unfold straddles. apply existsb_exists.
        exists (length (x :: k)). split; [|done].
        apply in_seq. simpl in *. lia.
  - right. left. eauto.
Qed.

Lemma includes_app_none p a b :
  includes p a = false -> includes p b = false -> straddles p b = false ->
  includes p (a ++ b) = false.
Proof.
  intros Ha Hb Hs. destruct (includes p (a ++ b)) eqn:H; [|done].
  apply includes_app in H as [H | [H | H]]; congruence.
Qed.

(** ** [disableLto] *)

Ltac absent := apply (bool_decide_unpack _); vm_compute; exact I.

Lemma lto_disabled_turned content :
  exists body,
    turned content body
    /\ includes (lit "CONFIG_LTO=y") body = false
    /\ includes (lit "CONFIG_LTO_CLANG=y") body = false
    /\ includes (lit "CONFIG_THINLTO=y") body = false
    /\ includes (lit "CONFIG_LTO_NONE") body = includes (lit "CONFIG_LTO_NONE") content
    /\ lto_disabled content
       = body ++ (if includes (lit "CONFIG_LTO_NONE") content then [] else lto_none_line).
Proof.
  unfold lto_disabled.
  set (c1 := replace_all (lit "CONFIG_LTO=y") (lit "CONFIG_LTO=n") content).
  set (c2 := replace_all (lit "CONFIG_LTO_CLANG=y") (lit "CONFIG_LTO_CLANG=n") c1).
  set (c3 := replace_all (lit "CONFIG_THINLTO=y") (lit "CONFIG_THINLTO=n") c2).
  assert (H1 : turned content c1) by apply (turned_replace_all (lit "CONFIG_LTO=")).
  assert (H2 : turned c1 c2) by apply (turned_replace_all (lit "CONFIG_LTO_CLANG=")).
  assert (H3 : turned c2 c3) by apply (turned_replace_all (lit "CONFIG_THINLTO=")).
  assert (G1 : includes (lit "CONFIG_LTO=y") c1 = false)
    by (apply (replace_all_gone (lit "CONFIG_LTO=")); absent).
  assert (G2 : includes (lit "CONFIG_LTO_CLANG=y") c2 = false)
    by (apply (replace_all_gone (lit "CONFIG_LTO_CLANG=")); absent).
  assert (G3 : includes (lit "CONFIG_THINLTO=y") c3 = false)
    by (apply (replace_all_gone (lit "CONFIG_THINLTO=")); absent).
  assert (Hall : turned content c3) by eauto using turned_trans.
  assert (Hnone : includes (lit "CONFIG_LTO_NONE") c3
                  = includes (lit "CONFIG_LTO_NONE") content).
  { destruct (includes (lit "CONFIG_LTO_NONE") content) eqn:Hc.
    - apply (includes_turned _ content); [absent | done | done].
    - destruct (includes (lit "CONFIG_LTO_NONE") c3) eqn:H; [|done].
      apply (includes_turned_back _ content) in H; [congruence | absent | done]. }
  exists c3. split_and!.
  - done.
  - destruct (includes (lit "CONFIG_LTO=y") c3) eqn:H; [|done].
    apply (includes_turned_back _ c2) in H; [|absent|done].
    apply (includes_turned_back _ c1) in H; [|absent|done].
    congruence.
  - destruct (includes (lit "CONFIG_LTO_CLANG=y") c3) eqn:H; [|done].
    apply (includes_turned_back _ c2) in H; [|absent|done].
    congruence.
  - done.
  - done.
  - rewrite Hnone. destruct (includes (lit "CONFIG_LTO_NONE") content); simpl.
    + by rewrite app_nil_r.
    + done.
Qed.

Lemma lto_disabled_clean content :
  includes (lit "CONFIG_LTO=y") (lto_disabled content) = false
  /\ includes (lit "CONFIG_LTO_CLANG=y") (lto_disabled content) = false
  /\ includes (lit "CONFIG_THINLTO=y") (lto_disabled content) = false
  /\ includes (lit "CONFIG_LTO_NONE") (lto_disabled content) = true.
Proof.
  destruct (lto_disabled_turned content) as (body & _ & H1 & H2 & H3 & Hn & ->).
  destruct (includes (lit "CONFIG_LTO_NONE") content) eqn:Hc.
  - rewrite app_nil_r. by rewrite H1, H2, H3, Hn.
  - split_and!.
    + apply includes_app_none; [done | by vm_compute | by vm_compute].
    + apply includes_app_none; [done | by vm_compute | by vm_compute].
    + apply includes_app_none; [done | by vm_compute | by vm_compute].
    + apply includes_app_r. by vm_compute.
Qed.

Lemma lto_disabled_idem content :
  lto_disabled (lto_disabled content) = lto_disabled content.
Proof.
  destruct (lto_disabled_clean content) as (H1 & H2 & H3 & Hn).
  unfold lto_disabled at 1.
  rewrite (replace_all_none _ _ _ H1), (replace_all_none _ _ _ H2),
    (replace_all_none _ _ _ H3), Hn.
  done.
Qed.

Lemma disableLto_existing configPath content d :
  stored d !! configPath = Some content ->
  disableLto configPath d
  = (Some tt,
     mkDisk (<[configPath := lto_disabled content]> (stored d))
            (calls d ++ [CfgStartGroup (lit "Disabling LTO");
                         CfgInfo (lit "Disabling LTO...");
                         CfgWriteFile configPath (lto_disabled content);
                         CfgInfo (lit "LTO disabled");
                         CfgEndGroup])).
Proof.
  destruct d as [fs cs]. cbn [stored calls]. intros H.
  cbv beta iota delta [disableLto mbind Act_bind core_startGroup core_endGroup
    cfg_info call fs_existsSync fs_readFileSync fs_writeFileSync stored calls].
  rewrite H. rewrite bool_decide_eq_true_2 by eauto.
  cbv beta iota zeta delta [negb stored calls lto_disabled].
  rewrite H. cbv beta iota zeta.
  rewrite <- ?app_assoc. reflexivity.
Qed.

(** X14. On an existing configuration file [disableLto] does not throw and
    writes the file once; the content it writes holds none of
    "CONFIG_LTO=y", "CONFIG_LTO_CLANG=y" and "CONFIG_THINLTO=y" any more and
    holds "CONFIG_LTO_NONE"; no other file changes, and the log group it
    opens is closed. *)
Theorem lto_switched_off configPath content d :
  stored d !! configPath = Some content ->
  exists written,
    disableLto configPath d
    = (Some tt,
       mkDisk (<[configPath := written]> (stored d))
              (calls d ++ [CfgStartGroup (lit "Disabling LTO");
                           CfgInfo (lit "Disabling LTO...");
                           CfgWriteFile configPath written;
                           CfgInfo (lit "LTO disabled");
                           CfgEndGroup]))
    /\ includes (lit "CONFIG_LTO=y") written = false
    /\ includes (lit "CONFIG_LTO_CLANG=y") written = false
    /\ includes (lit "CONFIG_THINLTO=y") written = false
    /\ includes (lit "CONFIG_LTO_NONE") written = true.
Proof.
  intros H. exists (lto_disabled content).
  split; [by apply disableLto_existing | apply lto_disabled_clean].
Qed.

(** X15. [disableLto] changes the file by turning "y" into "n" at some
    places and nothing else, except that it appends a line feed and the
    line "CONFIG_LTO_NONE=y" when, and only when, "CONFIG_LTO_NONE" occurs
    nowhere in the file as it was: an occurrence in a comment, as in
    "# CONFIG_LTO_NONE is not set", is enough for nothing to be appended. *)
Theorem lto_change_is_small configPath content d :
  stored d !! configPath = Some content ->
  exists body d',
    disableLto configPath d = (Some tt, d')
    /\ stored d' !! configPath
       = Some (body ++ (if includes (lit "CONFIG_LTO_NONE") content
                        then [] else lto_none_line))
    /\ turned content body
    /\ length body = length content.
Proof.
  intros H. destruct (lto_disabled_turned content) as (body & Ht & _ & _ & _ & _ & Heq).
  exists body. eexists. split; [by apply disableLto_existing|].
  cbn [stored]. rewrite lookup_insert_eq, Heq.
  split_and!; [done | done | by apply turned_length].
Qed.

(** X16. [disableLto] is idempotent on the file: a second run writes back
    the content that the first run wrote. *)
Theorem lto_twice configPath content d r1 d1 r2 d2 :
  stored d !! configPath = Some content ->
  disableLto configPath d = (r1, d1) ->
  disableLto configPath d1 = (r2, d2) ->
  r2 = Some tt /\ stored d2 = stored d1.
Proof.
  intros H Hrun1 Hrun2.
  rewrite (disableLto_existing _ _ _ H) in Hrun1. injection Hrun1 as <- <-.
  rewrite (disableLto_existing _ (lto_disabled content)) in Hrun2
    by (cbn [stored]; apply lookup_insert_eq).
  injection Hrun2 as <- <-. split; [done|]. cbn [stored].
  by rewrite lto_disabled_idem, insert_insert_eq.
Qed.

(** X17. On a path that holds no file [disableLto] warns that the
    configuration file was not found and returns: it does not throw, creates
    no file, and closes the log group it opened. *)
Theorem lto_missing_config configPath d :
  stored d !! configPath = None ->
  disableLto configPath d
  = (Some tt,
     mkDisk (stored d)
            (calls d ++ [CfgStartGroup (lit "Disabling LTO");
                         CfgWarning (lit "Config file not found: " ++ configPath);
                         CfgEndGroup])).
Proof.
  destruct d as [fs cs]. cbn [stored calls]. intros H.
  cbv beta iota delta [disableLto mbind Act_bind core_startGroup core_endGroup
    cfg_warning call fs_existsSync stored calls].
  rewrite H. rewrite bool_decide_eq_false_2 by (by intros [? ?]).
  cbv beta iota delta [negb stored calls].
  by rewrite <- !app_assoc.
Qed.

(** ** [enableKvm], [applyKernelConfig] and the file helpers *)

Ltac default_some :=
  repeat match goal with
         | |- context [default [] (Some ?x)] => change (default [] (Some x)) with x
         end.

Lemma enableKvm_run configPath d :
  enableKvm configPath d
  = (Some tt,
     mkDisk (<[configPath := default [] (stored d !! configPath) ++ kvm_lines]> (stored d))
            (calls d ++ [CfgStartGroup (lit "Enabling KVM support");
                         CfgInfo (lit "Enabling KVM support...");
                         CfgAppendFile configPath (lit "CONFIG_VIRTUALIZATION=y" ++ newline);
                         CfgAppendFile configPath (lit "CONFIG_KVM=y" ++ newline);
                         CfgAppendFile configPath (lit "CONFIG_KVM_MMIO=y" ++ newline);
                         CfgAppendFile configPath (lit "CONFIG_KVM_ARM_HOST=y" ++ newline);
                         CfgInfo (lit "KVM support enabled");
                         CfgEndGroup])).
Proof.
  destruct d as [fs cs].
  cbv beta iota zeta delta [enableKvm mbind Act_bind mret Act_ret core_startGroup
    core_endGroup cfg_info call cfg_for_of kvmOptions map appendConfig
    fs_appendFileSync stored calls].
  rewrite !lookup_insert_eq, !insert_insert_eq.
  default_some. unfold kvm_lines. rewrite <- ?app_assoc. reflexivity.
Qed.


Lemma applyKernelConfig_both configPath d :
  applyKernelConfig configPath (mkConfigOptions (Some true) (Some true)) d
  = match disableLto configPath d with
    | (Some _, d') => enableKvm configPath d'
    | (None, d') => (None, d')
    end.
Proof. reflexivity. Qed.

(** X19. With both options set on an existing file, [applyKernelConfig]
    leaves the file with the content written by [disableLto] followed by
    the four KVM lines, and LTO stays off: the file still holds none of
    "CONFIG_LTO=y", "CONFIG_LTO_CLANG=y" and "CONFIG_THINLTO=y", and still
    holds "CONFIG_LTO_NONE". *)
Theorem lto_off_with_kvm configPath content d :
  stored d !! configPath = Some content ->
  exists final d',
    applyKernelConfig configPath (mkConfigOptions (Some true) (Some true)) d
    = (Some tt, d')
    /\ stored d' !! configPath = Some final
    /\ final = lto_disabled content ++ kvm_lines
    /\ includes (lit "CONFIG_LTO=y") final = false
    /\ includes (lit "CONFIG_LTO_CLANG=y") final = false
    /\ includes (lit "CONFIG_THINLTO=y") final = false
    /\ includes (lit "CONFIG_LTO_NONE") final = true.
Proof.
  intros H. destruct (lto_disabled_clean content) as (H1 & H2 & H3 & Hn).
  exists (lto_disabled content ++ kvm_lines). eexists.
  rewrite applyKernelConfig_both, (disableLto_existing _ _ _ H).
  split; [apply enableKvm_run|]. cbn [stored].
  rewrite !lookup_insert_eq. default_some.
  split_and!; [done | done | | | |].
  - apply includes_app_none; [done | by vm_compute | by vm_compute].
  - apply includes_app_none; [done | by vm_compute | by vm_compute].
  - apply includes_app_none; [done | by vm_compute | by vm_compute].
  - by apply includes_app_l.
Qed.

(** X20. With both options set on a path that holds no file,
    [applyKernelConfig] does not throw: [disableLto] only warns, and
    [enableKvm] then creates the file, which holds the four KVM lines and
    nothing about LTO. *)
Theorem config_created_by_kvm configPath d :
  stored d !! configPath = None ->
  exists d',
    applyKernelConfig configPath (mkConfigOptions (Some true) (Some true)) d
    = (Some tt, d')
    /\ stored d' = <[configPath := kvm_lines]> (stored d)
    /\ includes (lit "CONFIG_LTO_NONE") kvm_lines = false
    /\ CfgWarning (lit "Config file not found: " ++ configPath) ∈ calls d'.
Proof.
  intros H.
  rewrite applyKernelConfig_both, (lto_missing_config _ _ H), enableKvm_run.
  cbn [stored calls]. unfold jsstring in *. rewrite H.
  change (default [] None ++ kvm_lines) with kvm_lines.
  eexists. split; [reflexivity|]. cbn [stored calls].
  split_and!; [done | by vm_compute |].
  rewrite !elem_of_app. left. right.
  apply elem_of_cons. right. apply elem_of_cons. by left.
Qed.

Lemma readKernelConfig_run configPath d :
  readKernelConfig configPath d = (Some (default [] (stored d !! configPath)), d).
Proof.
  unfold readKernelConfig, mbind, Act_bind, fs_existsSync, fs_readFileSync.
  destruct (stored d !! configPath) as [content|] eqn:H.
  - rewrite bool_decide_eq_true_2 by eauto. cbn [negb]. by rewrite H.
  - by rewrite bool_decide_eq_false_2 by (by intros [? ?]).
Qed.

(** X21. Reading back what was written: after
    [writeKernelConfig path content], [readKernelConfig path] returns
    [content], and reading any other path returns what it returned before.
    [readKernelConfig] never throws: on a path that holds no file it returns
    the empty string, so an empty file and a missing one read the same. *)
Theorem config_read_back configPath content other d :
  exists d',
    writeKernelConfig configPath content d = (Some tt, d')
    /\ readKernelConfig configPath d' = (Some content, d')
    /\ (other <> configPath ->
        (readKernelConfig other d').1 = (readKernelConfig other d).1)
    /\ (stored d !! other = None -> readKernelConfig other d = (Some [], d)).
Proof.
  eexists. split; [reflexivity|]. rewrite !readKernelConfig_run. cbn [stored fst].
  split_and!.
  - by rewrite lookup_insert_eq.
  - intros Hne. by rewrite lookup_insert_ne.
  - intros H. unfold jsstring in *. by rewrite H.
Qed.

(** ** [sedReplaceInRange] *)

Lemma sed_lines_length sp ep search replace inRange ls :
  length (sed_lines sp ep search replace inRange ls) = length ls.
Proof.
  revert inRange. induction ls as [|l ls IH]; intros inRange; simpl; [done|].
  by rewrite IH.
Qed.

(** Outside a range, and without a line that opens one, nothing changes. *)
Lemma sed_lines_no_start sp ep search replace ls :
  Forall (fun l => includes sp l = false) ls ->
  sed_lines sp ep search replace false ls = ls.
Proof.
  induction 1 as [|l ls Hl _ IH]; simpl; [done|].
  rewrite Hl. simpl. by rewrite IH.
Qed.

(** Line by line: a line is kept as it is or has its first occurrence of
    [search] replaced, and the second only when it holds [search] and does
    not hold [endPattern]. *)
Lemma sed_lines_each sp ep search replace inRange ls :
  Forall2 (fun l l' =>
             l' = l
             \/ (l' = replace_first search replace l
                 /\ includes search l = true /\ includes ep l = false))
          ls (sed_lines sp ep search replace inRange ls).
Proof.
  revert inRange. induction ls as [|l ls IH]; intros inRange; simpl; [constructor|].
  constructor; [|apply IH].
  destruct (includes sp l), inRange, (includes ep l) eqn:He, (includes search l) eqn:Hs;
    simpl; auto.
Qed.

Lemma sedReplaceInRange_existing filePath sp ep search replace content w :
  files w !! filePath = Some content ->
  sedReplaceInRange filePath sp ep search replace w
  = (Some tt,
     mkWorld (<[filePath := join_nl (sed_lines sp ep search replace false (split_nl content))]>
                (files w))
             (events w ++ [FsWriteFile filePath
                             (join_nl (sed_lines sp ep search replace false
                                         (split_nl content)))])).
Proof.
  destruct w as [fs evs]. cbn [files events]. intros H.
  cbv beta iota zeta delta [sedReplaceInRange fileExists mbind M_bind mret M_ret
    existsSync statSync_isFile readFileSync writeFileSync files events].
  rewrite H. rewrite bool_decide_eq_true_2 by eauto.
  cbv beta iota zeta delta [negb files events]. rewrite H.
  cbv beta iota zeta. rewrite H. reflexivity.
Qed.

(** X22. [sedReplaceInRange] on a path that holds no file does nothing
    and does not throw.  On an existing file it writes the file once, with
    as many lines as before; every line is either as it was or has its
    first occurrence of [search] replaced, and a line that holds
    [endPattern], or that does not hold [search], is never changed. *)
Theorem sed_range_line_by_line filePath sp ep search replace w :
  match files w !! filePath with
  | None => sedReplaceInRange filePath sp ep search replace w = (Some tt, w)
  | Some content =>
      exists ls',
        sedReplaceInRange filePath sp ep search replace w
        = (Some tt, mkWorld (<[filePath := join_nl ls']> (files w))
                            (events w ++ [FsWriteFile filePath (join_nl ls')]))
        /\ length ls' = length (split_nl content)
        /\ Forall2 (fun l l' =>
                      l' = l
                      \/ (l' = replace_first search replace l
                          /\ includes search l = true /\ includes ep l = false))
                   (split_nl content) ls'
  end.
Proof.
  destruct (files w !! filePath) as [content|] eqn:H.
  - eexists. split; [by apply sedReplaceInRange_existing|].
    split; [apply sed_lines_length | apply sed_lines_each].
  - destruct w as [fs evs]. cbn [files] in H.
    cbv beta iota zeta delta [sedReplaceInRange fileExists mbind M_bind mret M_ret
      existsSync files events].
    rewrite bool_decide_eq_false_2 by (rewrite H; by intros [? ?]). reflexivity.
Qed.

(** X23. When no line of the file holds [startPattern], no range is ever
    opened and [sedReplaceInRange] writes the file back byte for byte. *)
Theorem sed_range_never_opened filePath sp ep search replace content w :
  files w !! filePath = Some content ->
  Forall (fun l => includes sp l = false) (split_nl content) ->
  sedReplaceInRange filePath sp ep search replace w
  = (Some tt, mkWorld (<[filePath := content]> (files w))
                      (events w ++ [FsWriteFile filePath content])).
Proof.
  intros H Hno. rewrite (sedReplaceInRange_existing _ _ _ _ _ _ _ H).
  by rewrite sed_lines_no_start, join_nl_split_nl.
Qed.

(** ** The properties at work *)

Lemma lto_switched_off_witness :
  exists written,
    (disableLto config_path (disk_with sample_config)).1 = Some tt
    /\ stored (disableLto config_path (disk_with sample_config)).2 !! config_path
       = Some written
    /\ includes (lit "CONFIG_LTO=y") written = false.
Proof.
  destruct (lto_switched_off config_path sample_config (disk_with sample_config))
    as (written & -> & H1 & _).
  - vm_compute. reflexivity.
  - exists written. cbn [fst snd stored]. split_and!; [done | apply lookup_insert_eq | done].
Defined.

Lemma lto_change_is_small_witness :
  exists body d',
    disableLto config_path (disk_with sample_config) = (Some tt, d')
    /\ stored d' !! config_path = Some (body ++ [])
    /\ length body = length sample_config.
Proof.
  destruct (lto_change_is_small config_path sample_config (disk_with sample_config))
    as (body & d' & Hrun & Hst & _ & Hlen).
  - vm_compute. reflexivity.
  - exists body, d'. split_and!; [exact Hrun | exact Hst | exact Hlen].
Defined.

Lemma lto_twice_witness :
  stored (disableLto config_path
            (disableLto config_path (disk_with sample_config)).2).2
  = stored (disableLto config_path (disk_with sample_config)).2.
Proof.
  apply (lto_twice config_path sample_config (disk_with sample_config)
           (disableLto config_path (disk_with sample_config)).1
           (disableLto config_path (disk_with sample_config)).2
           (disableLto config_path
              (disableLto config_path (disk_with sample_config)).2).1
           (disableLto config_path
              (disableLto config_path (disk_with sample_config)).2).2).
  - vm_compute. reflexivity.
  - vm_compute. reflexivity.
  - vm_compute. reflexivity.
Defined.

Lemma lto_missing_config_witness :
  disableLto (lit "nowhere/.config") (disk_with sample_config)
  = (Some tt,
     mkDisk {[ config_path := sample_config ]}
            [CfgStartGroup (lit "Disabling LTO");
             CfgWarning (lit "Config file not found: nowhere/.config");
             CfgEndGroup]).
Proof.
  apply (lto_missing_config (lit "nowhere/.config") (disk_with sample_config)).
  vm_compute. reflexivity.
Defined.

Lemma lto_off_with_kvm_witness :
  exists final d',
    applyKernelConfig config_path (mkConfigOptions (Some true) (Some true))
      (disk_with sample_config)
    = (Some tt, d')
    /\ stored d' !! config_path = Some final
    /\ includes (lit "CONFIG_LTO=y") final = false.
Proof.
  destruct (lto_off_with_kvm config_path sample_config (disk_with sample_config))
    as (final & d' & Hrun & Hst & _ & H1 & _).
  - vm_compute. reflexivity.
  - exists final, d'. split_and!; [exact Hrun | exact Hst | exact H1].
Defined.

Lemma config_created_by_kvm_witness :
  exists d',
    applyKernelConfig (lit "nowhere/.config") (mkConfigOptions (Some true) (Some true))
      (disk_with sample_config)
    = (Some tt, d')
    /\ stored d' = <[lit "nowhere/.config" := kvm_lines]> {[ config_path := sample_config ]}.
Proof.
  destruct (config_created_by_kvm (lit "nowhere/.config") (disk_with sample_config))
    as (d' & Hrun & Hst & _).
  - vm_compute. reflexivity.
  - exists d'. split; [exact Hrun | exact Hst].
Defined.

Lemma sed_range_never_opened_witness :
  sedReplaceInRange build_log (lit "config KSU") (lit "help") (lit "default y")
    (lit "default m") (world_with (lit "config FOO" ++ newline ++ lit "  default y"))
  = (Some tt,
     mkWorld (<[build_log := lit "config FOO" ++ newline ++ lit "  default y"]>
                {[ build_log := lit "config FOO" ++ newline ++ lit "  default y" ]})
             ([] ++ [FsWriteFile build_log
                       (lit "config FOO" ++ newline ++ lit "  default y")])).
Proof.
  apply (sed_range_never_opened build_log (lit "config KSU") (lit "help")
           (lit "default y") (lit "default m")
           (lit "config FOO" ++ newline ++ lit "  default y")
           (world_with (lit "config FOO" ++ newline ++ lit "  default y"))).
  - vm_compute. reflexivity.
  - repeat (apply Forall_cons; split; [vm_compute; reflexivity|]). by apply Forall_nil.
Defined.
